(** * Search and ranking core of the terminology mapper

    A shallow embedding of three Python modules of the repository,
    [Mapping/api/autocomplete.py], [Mapping/search.py] and
    [Mapping/reranking.py], followed by the properties stated for them.

    Conventions of the embedding.
    - A Python [str] is a list of characters; characters are code points
      below 256 ([ascii]).
    - A float score is the real (or rational) number it denotes; only
      order, addition and the decimal logarithm are used.
    - A dictionary with optional keys is a record of [option] fields; an
      absent key is [None].
    - [list.sort] is stable, so it is the stable insertion sort below
      (the result of a stable sort is unique). *)

From Stdlib Require Import List Arith PeanoNat ZArith QArith Qminmax Bool Ascii.
From Stdlib Require String.
Import String.StringSyntax.
From Stdlib Require Import Permutation Sorted Lia Reals Lra.
Import ListNotations.

Set Implicit Arguments.
Local Open Scope nat_scope.
Local Open Scope list_scope.

(* ================================================================== *)
(** * Stable sorting by a key *)
(* ================================================================== *)

Section StableSort.
Variables A K : Type.
(** [before k1 k2]: an element with key [k1] may stand in front of an
    element with key [k2]. *)
Variable before : K -> K -> bool.
Variable key : A -> K.

(** [x] comes from the left of everything already in [l], so it stops in
    front of the first element it may precede: ties keep input order. *)
Fixpoint insert_stable (x : A) (l : list A) : list A :=
  match l with
  | [] => [x]
  | y :: l' =>
      if before (key x) (key y) then x :: l else y :: insert_stable x l'
  end.

Definition stable_sort (l : list A) : list A :=
  fold_right insert_stable [] l.
End StableSort.

(** Text literals. *)
Definition str := list ascii.
Definition lit (s : String.string) : str := String.list_ascii_of_string s.
Arguments lit s%_string_scope.

Definition str_eqb (a b : str) : bool :=
  if list_eq_dec ascii_dec a b then true else false.

(* ================================================================== *)
(** * Mapping/api/autocomplete.py *)
(* ================================================================== *)

Module Autocomplete.

(** [str.lower()] on code points below 256 that survive the filter of
    [normalize]: only A-Z change. *)
Definition lower (c : ascii) : ascii :=
  let n := nat_of_ascii c in
  if (65 <=? n) && (n <=? 90) then ascii_of_nat (n + 32) else c.

(** The character class [a-zA-Z0-9 ]. *)
Definition allowed (c : ascii) : bool :=
  let n := nat_of_ascii c in
  ((97 <=? n) && (n <=? 122)) || ((65 <=? n) && (n <=? 90))
  || ((48 <=? n) && (n <=? 57)) || (n =? 32).

(** [re.sub(r"[^a-zA-Z0-9 ]", "", text.lower())] *)
Definition normalize (text : str) : str :=
  filter allowed (map lower text).

(** [s.startswith(p)] *)
Fixpoint startswith (s p : str) : bool :=
  match p, s with
  | [], _ => true
  | _ :: _, [] => false
  | b :: p', a :: s' => Ascii.eqb a b && startswith s' p'
  end.

(** [p in s] *)
Fixpoint contains (p s : str) : bool :=
  startswith s p ||
  match s with
  | [] => false
  | _ :: s' => contains p s'
  end.

(** Whitespace of [str.split()] among code points below 256. *)
Definition is_space (c : ascii) : bool :=
  let n := nat_of_ascii c in
  ((9 <=? n) && (n <=? 13)) || ((28 <=? n) && (n <=? 32))
  || (n =? 133) || (n =? 160).

(** [s.split()]: maximal runs of non-whitespace; [cur] is the word being
    read, last character first. *)
Fixpoint split_from (cur : str) (s : str) : list str :=
  match s with
  | [] => match cur with [] => [] | _ => [rev cur] end
  | c :: s' =>
      if is_space c
      then match cur with
           | [] => split_from [] s'
           | _ => rev cur :: split_from [] s'
           end
      else split_from (c :: cur) s'
  end.

Definition split (s : str) : list str := split_from [] s.

(** ** levenshtein_distance *)

Definition min3 (a b c : nat) : nat := Nat.min a (Nat.min b c).

(** [(c1 != c2)] used as an integer. *)
Definition neq_cost (c1 c2 : ascii) : nat :=
  if Ascii.eqb c1 c2 then 0 else 1.

(** The inner loop [for j, c2 in enumerate(s2)].  [previous_row] is the
    part of the previous row from index [j] on and [current_last] is
    [current_row[j]]; the result is what the loop appends. *)
Fixpoint inner_loop (c1 : ascii) (s2 : str) (previous_row : list nat)
         (current_last : nat) : list nat :=
  match s2, previous_row with
  | c2 :: s2', p_j :: ((p_j1 :: _) as previous_tail) =>
      let insertions := p_j1 + 1 in
      let deletions := current_last + 1 in
      let substitutions := p_j + neq_cost c1 c2 in
      let v := min3 insertions deletions substitutions in
      v :: inner_loop c1 s2' previous_tail v
  | _, _ => []
  end.

(** The outer loop [for i, c1 in enumerate(s1)], started at index [i]. *)
Fixpoint outer_loop (i : nat) (s1 s2 : str) (previous_row : list nat)
  : list nat :=
  match s1 with
  | [] => previous_row
  | c1 :: s1' =>
      let current_row := (i + 1) :: inner_loop c1 s2 previous_row (i + 1) in
      outer_loop (S i) s1' s2 current_row
  end.

(** The body below the length test, for [len(s1) >= len(s2)]. *)
Definition levenshtein_rows (s1 s2 : str) : nat :=
  if length s2 =? 0 then length s1
  else last (outer_loop 0 s1 s2 (seq 0 (length s2 + 1))) 0.

(** The recursive call swaps the arguments once; after the swap the
    length test fails, so the call runs the body. *)
Definition levenshtein_distance (s1 s2 : str) : nat :=
  if length s1 <? length s2 then levenshtein_rows s2 s1
  else levenshtein_rows s1 s2.

(** ** fuzzy_match_terms *)

Record item := Item { code : str; term : str; definition : str }.

Definition item_eqb (a b : item) : bool :=
  str_eqb (code a) (code b) && str_eqb (term a) (term b)
  && str_eqb (definition a) (definition b).

(** [min(word_distances) if word_distances else float('inf')]; [None]
    is infinity. *)
Definition min_of (l : list nat) : option nat :=
  match l with
  | [] => None
  | d :: l' => Some (fold_left Nat.min l' d)
  end.

Definition min_with_inf (d : nat) (m : option nat) : nat :=
  match m with
  | None => d
  | Some w => Nat.min d w
  end.

Definition best_distance (query_norm : str) (it : item) : nat :=
  let term_norm := normalize (term it) in
  let code_norm := normalize (code it) in
  let term_distance := levenshtein_distance query_norm term_norm in
  let code_distance := levenshtein_distance query_norm code_norm in
  let term_words := split term_norm in
  let word_distances :=
    map (levenshtein_distance query_norm)
        (filter (fun word => 2 <? length word) term_words) in
  let min_word_distance := min_of word_distances in
  min_with_inf (Nat.min term_distance code_distance) min_word_distance.

Definition fuzzy_match_terms (query : str) (dataset : list item)
           (max_distance : nat) : list (item * nat) :=
  let query_norm := normalize query in
  let matches :=
    flat_map (fun it =>
                let d := best_distance query_norm it in
                if d <=? max_distance then [(it, d)] else [])
             dataset in
  stable_sort Nat.leb (@snd item nat) matches.

(** ** autocomplete_search *)

Record suggestion := Suggestion {
  sug_item : item;
  distance : nat;
  suggestion_text : str
}.

(** The returned dictionary; [has_fuzzy = None] when the key is absent. *)
Record search_result := SearchResult {
  results : list item;
  fuzzy_suggestions : list suggestion;
  has_fuzzy : option bool
}.

(** Priority 1: the prefix loop. *)
Definition prefix_matches (query_norm : str) (dataset : list item)
  : list item :=
  filter (fun it =>
            startswith (normalize (term it)) query_norm
            || startswith (normalize (code it)) query_norm
            || startswith (normalize (definition it)) query_norm)
         dataset.

(** Priority 2: the substring loop, appending to [results]. *)
Fixpoint substring_matches (query_norm : str) (dataset : list item)
         (results : list item) : list item :=
  match dataset with
  | [] => results
  | it :: rest =>
      let blob :=
        normalize (term it ++ lit " " ++ code it ++ lit " " ++ definition it) in
      if contains query_norm blob && negb (existsb (item_eqb it) results)
      then substring_matches query_norm rest (results ++ [it])
      else substring_matches query_norm rest results
  end.

(** [results] when the fuzzy stage is reached. *)
Definition staged_matches (query_norm : str) (dataset : list item)
  : list item :=
  let results := prefix_matches query_norm dataset in
  if length results <? 20
  then substring_matches query_norm dataset results
  else results.

Definition make_suggestion (m : item * nat) : suggestion :=
  {| sug_item := fst m;
     distance := snd m;
     suggestion_text := lit "Did you mean '" ++ term (fst m) ++ lit "'?" |}.

Definition autocomplete_search (query : str) (dataset : list item)
  : search_result :=
  let query_norm := normalize query in
  if length query_norm <? 2
  then {| results := []; fuzzy_suggestions := []; has_fuzzy := None |}
  else
    let results := staged_matches query_norm dataset in
    let '(results, fuzzy_suggestions) :=
      if (length results =? 0) && (3 <=? length query_norm)
      then
        let fuzzy_matches := fuzzy_match_terms query_norm dataset 2 in
        match fuzzy_matches with
        | [] => (results, [])
        | _ => (map fst (firstn 10 fuzzy_matches),
                map make_suggestion (firstn 5 fuzzy_matches))
        end
      else (results, [])
    in
    {| results := firstn 20 results;
       fuzzy_suggestions := fuzzy_suggestions;
       has_fuzzy := Some (0 <? length fuzzy_suggestions) |}.

End Autocomplete.

(* ================================================================== *)
(** * Mapping/search.py *)
(* ================================================================== *)

Module Search.

(** Exceptions ([IndexError]) are [None]. *)
Definition bind {X Y : Type} (m : option X) (f : X -> option Y) : option Y :=
  match m with
  | Some x => f x
  | None => None
  end.

Notation "x <- m ;; k" := (bind m (fun x => k))
  (at level 61, m at next level, right associativity).

Fixpoint for_each {X Y : Type} (f : X -> option Y) (l : list X)
  : option (list Y) :=
  match l with
  | [] => Some []
  | x :: l' => y <- f x ;; ys <- for_each f l' ;; Some (y :: ys)
  end.

(** [a[ids]] with a list of indices; an index past the end raises. *)
Definition take {X : Type} (a : list X) (ids : list nat) : option (list X) :=
  for_each (nth_error a) ids.

Record candidate := Candidate { code : str; term : str; score : Q }.

Section Pipeline.
(** numpy, rank_bm25, scikit-learn and sentence-transformers are
    libraries outside the repository: what the module calls is taken
    as given. *)
Variable argsort : list Q -> list nat.          (* np.argsort *)
Variable bm25_get_scores : str -> list Q.
    (* bm25.get_scores(query.lower().split()) *)
Variables tfidf_row tfidf_vec embedding : Type.
Variable tfidf_transform : str -> tfidf_vec.    (* tfidf_vectorizer.transform *)
Variable tfidf_matrix : list tfidf_row.
Variable dot : tfidf_row -> tfidf_vec -> Q.     (* row @ q_vec.T *)
Variable encode : str -> embedding.             (* embedder.encode *)
Variable embeddings : list embedding.
Variable cos_sim : embedding -> embedding -> Q. (* util.cos_sim *)
Variables codes terms : list str.

(** [np.argsort(scores)[::-1][:top_k]] *)
Definition top (top_k : nat) (scores : list Q) : list nat :=
  firstn top_k (rev (argsort scores)).

Definition bm25_search (query : str) (top_k : nat) : list nat :=
  let scores := bm25_get_scores query in
  top top_k scores.

Definition tfidf_rerank (query : str) (candidate_ids : list nat)
           (top_k : nat) : option (list nat) :=
  let q_vec := tfidf_transform query in
  sub_matrix <- take tfidf_matrix candidate_ids ;;
  let scores := map (fun row => dot row q_vec) sub_matrix in
  let top_local := top top_k scores in
  for_each (fun i => nth_error candidate_ids i) top_local.

Definition semantic_rerank (query : str) (candidate_ids : list nat)
           (top_k : nat) : option (list candidate) :=
  let q_emb := encode query in
  sub_emb <- take embeddings candidate_ids ;;
  let scores := map (cos_sim q_emb) sub_emb in
  let top_local := top top_k scores in
  for_each (fun i =>
              id <- nth_error candidate_ids i ;;
              c <- nth_error codes id ;;
              t <- nth_error terms id ;;
              s <- nth_error scores i ;;
              Some {| code := c; term := t; score := s |})
           top_local.

(** The value under the key ["candidates"]. *)
Definition search_siddha (query : str) : option (list candidate) :=
  let bm25_ids := bm25_search query 100 in
  tfidf_ids <- tfidf_rerank query bm25_ids 60 ;;
  candidates <- semantic_rerank query tfidf_ids 10 ;;
  Some candidates.
End Pipeline.

(** An [argsort] that keeps equal scores in index order, as a stable
    sort does. *)
Definition argsort_stable (scores : list Q) : list nat :=
  stable_sort Qle_bool (fun i => nth i scores 0%Q) (seq 0 (length scores)).

End Search.

(* ================================================================== *)
(** * Mapping/reranking.py *)
(* ================================================================== *)

Module Reranking.
Local Open Scope R_scope.

Definition MAX_BOOST : R := 5 / 10.
Definition BOOST_WEIGHT : R := 1 / 10.

(** [math.log10] *)
Definition log10 (x : R) : R := ln x / ln 10.

Definition calculate_boost (selection_count : Z) : R :=
  if (selection_count <=? 0)%Z then 0
  else
    let log_boost := log10 (IZR (selection_count + 1)) * BOOST_WEIGHT in
    Rmin log_boost MAX_BOOST.

(** [round(x, 3)]: the nearest multiple of 1/1000, halves to even. *)
Definition round_half_even (y : R) : Z :=
  let f := (up y - 1)%Z in
  let d := y - IZR f in
  if Rlt_dec d (1 / 2) then f
  else if Rlt_dec (1 / 2) d then (f + 1)%Z
  else if Z.even f then f else (f + 1)%Z.

Definition round3 (x : R) : R := IZR (round_half_even (x * 1000)) / 1000.

Definition Rleb (a b : R) : bool := if Rle_dec a b then true else false.

Section Results.
(** The keys of a result other than the five the engine touches. *)
Variable payload : Type.

Record result := Result {
  code : option str;
  score : option R;
  final_score : option R;
  boost_applied : option R;
  selection_count : option Z;
  other : payload
}.

(** [selection_counts]: a dictionary from code to count. *)
Definition counts := str -> option Z.

(** One turn of the loop [for item in results]. *)
Definition apply_boost (selection_counts : counts) (item : result)
  : result :=
  match code item with
  | None => item
  | Some [] => item
  | Some c =>
      let base_score := match score item with Some s => s | None => 5 / 10 end in
      let selection_count :=
        match selection_counts c with Some n => n | None => 0%Z end in
      let boost := calculate_boost selection_count in
      {| code := code item;
         score := score item;
         final_score := Some (base_score + boost);
         boost_applied := Some (round3 boost);
         selection_count := Some selection_count;
         other := other item |}
  end.

(** [x.get('final_score', x.get('score', 0))] *)
Definition sort_key (x : result) : R :=
  match final_score x with
  | Some f => f
  | None => match score x with Some s => s | None => 0 end
  end.

(** [results.sort(key=..., reverse=True)]: descending, ties in input
    order. *)
Definition apply_boost_to_results (results : list result)
           (selection_counts : counts) : list result :=
  stable_sort (fun a b => Rleb b a) sort_key
              (map (apply_boost selection_counts) results).
End Results.

End Reranking.

(* ================================================================== *)
(** * Other operations of the three modules and of their callers *)
(* ================================================================== *)

(** ** The route handlers of Mapping/api/autocomplete.py *)

Module AutocompleteRoutes.

(** The three shapes of a response, by their ["source"]. *)
Inductive response (web : Type) :=
| FuzzyMatch (query : str) (results : list Autocomplete.item)
             (fuzzy_suggestions : list Autocomplete.suggestion)
             (message : str)
| GoogleFallback (query : str) (results : list web) (message : str)
| Local (query : str) (results : list Autocomplete.item).

Arguments FuzzyMatch {web}.
Arguments GoogleFallback {web}.
Arguments Local {web}.

Section Handler.
(** What [await google_search_fallback(q, system)] returns; the call is
    outside the module's control. *)
Variable web : Type.
Variable google_search_fallback : str -> str -> list web.

(** The body shared by [siddha_autocomplete], [ayurveda_autocomplete],
    [unani_autocomplete] and [ayurveda_sat_autocomplete]; [None] is an
    exception ([KeyError], [IndexError]). *)
Definition autocomplete_route (system : str)
           (dataset : list Autocomplete.item) (q : str)
  : option (response web) :=
  let search_result := Autocomplete.autocomplete_search q dataset in
  let matches := Autocomplete.results search_result in
  let fuzzy_suggestions := Autocomplete.fuzzy_suggestions search_result in
  match Autocomplete.has_fuzzy search_result with
  | None => None
  | Some has_fuzzy =>
      if has_fuzzy then
        match fuzzy_suggestions with
        | [] => None
        | first :: _ =>
            Some (FuzzyMatch q matches fuzzy_suggestions
                    (lit "Did you mean '"
                     ++ Autocomplete.term (Autocomplete.sug_item first)
                     ++ lit "'?"))
        end
      else if length matches =? 0 then
        match google_search_fallback q system with
        | [] => Some (Local q matches)
        | google_results =>
            Some (GoogleFallback q google_results
                    (lit "No local results found. Showing web search results."))
        end
      else Some (Local q matches)
  end.
End Handler.

End AutocompleteRoutes.

(** ** SIH_WebMicroservice/Mapping/api/autocomplete.py *)

Module WebAutocomplete.

(** The earlier [autocomplete_search]: the same two loops, no fuzzy stage,
    a plain list as result. *)
Definition autocomplete_search (query : str)
           (dataset : list Autocomplete.item) : list Autocomplete.item :=
  let query := Autocomplete.normalize query in
  if length query <? 2 then []
  else
    let results := Autocomplete.prefix_matches query dataset in
    let results :=
      if length results <? 20
      then Autocomplete.substring_matches query dataset results
      else results in
    firstn 20 results.

End WebAutocomplete.

(** ** Mapping/search_ayurveda_sat.py *)

Module SearchAyurvedaSat.
Import Search.

Record candidate := Candidate {
  code : str; term : str; definition : str; score : Q
}.

Section Pipeline.
Variable argsort : list Q -> list nat.
Variable bm25_get_scores : str -> list Q.
Variables tfidf_row tfidf_vec embedding : Type.
Variable tfidf_transform : str -> tfidf_vec.
Variable tfidf_matrix : list tfidf_row.
Variable dot : tfidf_row -> tfidf_vec -> Q.
Variable encode : str -> embedding.
Variable embeddings : list embedding.
Variable cos_sim : embedding -> embedding -> Q.
Variables codes terms definitions : list str.

(** Stage 3 with the definition of the document, or a placeholder when
    the definition is empty. *)
Definition semantic_rerank (query : str) (candidate_ids : list nat)
           (top_k : nat) : option (list candidate) :=
  let q_emb := encode query in
  sub_emb <- take embeddings candidate_ids ;;
  let scores := map (cos_sim q_emb) sub_emb in
  let top_local := top argsort top_k scores in
  for_each (fun i =>
              id <- nth_error candidate_ids i ;;
              c <- nth_error codes id ;;
              t <- nth_error terms id ;;
              d <- nth_error definitions id ;;
              s <- nth_error scores i ;;
              Some {| code := c;
                      term := t;
                      definition :=
                        match d with
                        | [] => lit "No description available."
                        | _ => d
                        end;
                      score := s |})
           top_local.

Definition search_ayurveda_sat (query : str) : option (list candidate) :=
  let bm25_ids := bm25_search argsort bm25_get_scores query 100 in
  tfidf_ids <-
    tfidf_rerank argsort tfidf_transform tfidf_matrix dot query bm25_ids 60 ;;
  candidates <- semantic_rerank query tfidf_ids 10 ;;
  Some candidates.
End Pipeline.

End SearchAyurvedaSat.

(** ** The rest of Mapping/reranking.py *)

Module RerankingEngine.
Import Reranking.

Definition MIN_SCORE_THRESHOLD : R := (3 / 10)%R.

Section Results.
Variable payload : Type.

(** [item.get('final_score', item.get('score', 0)) >= threshold] *)
Definition filter_low_confidence (results : list (result payload))
           (threshold : R) : list (result payload) :=
  filter (fun item => Rleb threshold (sort_key item)) results.

(** What [get_selection_counts] returns: one dictionary per kind of
    code. *)
Record selection_counts := SelectionCounts {
  tm_codes : counts;
  icd11_standard : counts;
  icd11_tm2 : counts
}.

(** The keys of a mapping result that hold lists of candidates. *)
Definition mapping := str -> option (list (result payload)).

(** [mapping_result[key] = value] *)
Definition set_key (m : mapping) (key : str) (value : list (result payload))
  : mapping :=
  fun k => if str_eqb k key then Some value else m k.

(** [if key in mapping_result: mapping_result[key] =
    self.apply_boost_to_results(mapping_result[key], counts)] *)
Definition rerank_key (m : mapping) (key : str) (c : counts) : mapping :=
  match m key with
  | Some candidates => set_key m key (apply_boost_to_results candidates c)
  | None => m
  end.

(** [system.replace('-', '_')] *)
Definition replace_hyphen (system : str) : str :=
  map (fun ch => if Ascii.eqb ch "-"%char then "_"%char else ch) system.

(** [counts] is what [get_selection_counts(system, query)] returned. *)
Definition rerank_mapping_results (counts : selection_counts)
           (mapping_result : mapping) (system : str) : mapping :=
  let system_key := replace_hyphen system in
  let tm_candidates_key := system_key ++ lit "_candidates" in
  let m1 := rerank_key mapping_result tm_candidates_key (tm_codes counts) in
  let m2 := rerank_key m1 (lit "icd11_standard_candidates")
                       (icd11_standard counts) in
  rerank_key m2 (lit "icd11_tm2_candidates") (icd11_tm2 counts).
End Results.

(** [sorted(counts.items(), key=lambda x: x[1], reverse=True)[:limit]]; a
    dictionary is the list of its items in insertion order. *)
Definition top_codes (items : list (str * Z)) (limit : nat)
  : list (str * Z) :=
  firstn limit (stable_sort (fun a b => (b <=? a)%Z) (@snd str Z) items).

(** The three dictionaries of counts, each as its items; also the shape
    of what [get_top_codes_by_system] returns. *)
Record code_counts := CodeCounts {
  tm_items : list (str * Z);
  icd11_standard_items : list (str * Z);
  icd11_tm2_items : list (str * Z)
}.

(** [counts] is what [get_selection_counts(system)] returned. *)
Definition get_top_codes_by_system (counts : code_counts) (limit : nat)
  : code_counts :=
  let top_tm := top_codes (tm_items counts) limit in
  let top_icd11_standard := top_codes (icd11_standard_items counts) limit in
  let top_icd11_tm2 := top_codes (icd11_tm2_items counts) limit in
  {| tm_items := top_tm;
     icd11_standard_items := top_icd11_standard;
     icd11_tm2_items := top_icd11_tm2 |}.

End RerankingEngine.

(** ** [_find_rank] of Mapping/database.py and Mapping/cli_app.py *)

Module Database.

(** The values a key of a candidate may hold. *)
Inductive value :=
| VNone
| VStr (s : str)
| VNum (q : Q).

(** [==] on values. *)
Definition value_eqb (a b : value) : bool :=
  match a, b with
  | VNone, VNone => true
  | VStr s, VStr t => str_eqb s t
  | VNum p, VNum q => Qeq_bool p q
  | _, _ => false
  end.

(** A dictionary: its items, keys distinct. *)
Definition dict := list (str * value).

(** [d.get(key)] *)
Fixpoint get (d : dict) (key : str) : value :=
  match d with
  | [] => VNone
  | (k, v) :: d' => if str_eqb k key then v else get d' key
  end.

(** The loop [for i, candidate in enumerate(candidates[:10], 1)], from
    position [i] on. *)
Fixpoint find_from (i : nat) (candidates : list dict) (selected_code : value)
  : option nat :=
  match candidates with
  | [] => None
  | candidate :: rest =>
      if value_eqb (get candidate (lit "code")) selected_code
      then Some i
      else find_from (S i) rest selected_code
  end.

Definition find_rank (selected_item : option dict) (candidates : list dict)
  : option nat :=
  match selected_item, candidates with
  | None, _ => None
  | Some [], _ => None
  | _, [] => None
  | Some selected, _ =>
      let selected_code := get selected (lit "code") in
      find_from 1 (firstn 10 candidates) selected_code
  end.

End Database.

(* ================================================================== *)
(** * Devices of the proofs *)
(* ================================================================== *)

(** The table of the dynamic program of [levenshtein_distance]: entry
    [(i, j)] is what row [i] holds at index [j]. *)
Definition cell_cost (x y : option ascii) : nat :=
  match x, y with
  | Some c1, Some c2 => Autocomplete.neq_cost c1 c2
  | _, _ => 0
  end.

Fixpoint lev_table (a b : str) (i : nat) {struct i} : nat -> nat :=
  match i with
  | 0 => fun j => j
  | S i' =>
      fix row (j : nat) : nat :=
        match j with
        | 0 => S i'
        | S j' =>
            Autocomplete.min3
              (lev_table a b i' (S j') + 1)
              (row j' + 1)
              (lev_table a b i' j' + cell_cost (nth_error a i') (nth_error b j'))
        end
  end.

(** A list in which each element may stand in front of all later ones. *)
Definition sorted_by {A K : Type} (before : K -> K -> bool) (key : A -> K)
  : list A -> Prop :=
  StronglySorted (fun x y => before (key x) (key y) = true).

(** [m] is the least element of [l]. *)
Definition is_minimum (m : nat) (l : list nat) : Prop :=
  In m l /\ Forall (fun d => m <= d) l.

(** The distances the fuzzy stage compares for one document: query
    against the normalized term, against the normalized code, and against
    each word of the normalized term longer than 2 characters. *)
Definition fuzzy_distances (query_norm : str) (it : Autocomplete.item)
  : list nat :=
  let term_norm := Autocomplete.normalize (Autocomplete.term it) in
  Autocomplete.levenshtein_distance query_norm term_norm
  :: Autocomplete.levenshtein_distance query_norm
       (Autocomplete.normalize (Autocomplete.code it))
  :: map (Autocomplete.levenshtein_distance query_norm)
       (filter (fun word => 2 <? length word) (Autocomplete.split term_norm)).

(** The catalog of [test_fuzzy_matching.py]. *)
Definition sample_data : list Autocomplete.item :=
  [ Autocomplete.Item (lit "SP42") (lit "Fever disorder") (lit "High body temperature");
    Autocomplete.Item (lit "SP43") (lit "Fever with chills") (lit "Fever accompanied by chills");
    Autocomplete.Item (lit "SP44") (lit "Pain disorder") (lit "Chronic pain condition");
    Autocomplete.Item (lit "SP45") (lit "Back pain") (lit "Pain in the back region");
    Autocomplete.Item (lit "SP46") (lit "Joint pain") (lit "Pain in joints");
    Autocomplete.Item (lit "SP47") (lit "Swelling") (lit "Abnormal enlargement");
    Autocomplete.Item (lit "SP48") (lit "Diabetes") (lit "Metabolic disorder") ].

(** A catalog holding one document whose term is "Fever disorder". *)
Definition fever_item (c d : str) : Autocomplete.item :=
  Autocomplete.Item c (lit "Fever disorder") d.

(** What [np.argsort] promises: the indices of the array, each once, in
    ascending order of value. *)
Definition argsort_contract (argsort : list Q -> list nat) : Prop :=
  forall scores : list Q,
    Permutation (argsort scores) (seq 0 (length scores))
    /\ sorted_by Qle_bool (fun i => nth i scores 0%Q) (argsort scores).

(** A ranking [ids] breaks ties of [scores] by catalog order: of two
    documents with equal scores the one with the smaller index is ranked
    first. *)
Definition ties_in_catalog_order (scores : list Q) (ids : list nat) : Prop :=
  forall p q i j,
    p < q -> nth_error ids p = Some i -> nth_error ids q = Some j ->
    (nth i scores 0 == nth j scores 0)%Q -> i < j.

(** A corpus of three documents whose three indexes are tables of
    numbers; the query plays no part in the scores. *)
Definition toy_codes : list str := [lit "SP42"; lit "SP43"; lit "SP44"].
Definition toy_terms : list str := [lit "Fever"; lit "Pain"; lit "Swelling"].
Definition toy_bm25 (_ : str) : list Q := [1; 3; 2]%Q.
Definition toy_rows : list Q := [5; 4; 6]%Q.
Definition toy_embeddings : list Q := [(1 # 2); (1 # 3); (1 # 4)]%Q.
Definition toy_search_siddha : str -> option (list Search.candidate) :=
  Search.search_siddha Search.argsort_stable toy_bm25
    (fun _ : str => tt) toy_rows (fun (row : Q) (_ : unit) => row)
    (fun _ : str => 1%Q) toy_embeddings (fun q e : Q => (q * e)%Q)
    toy_codes toy_terms.

(** Descending order of keys: what [reverse=True] sorts by. *)
Definition descending (a b : R) : bool := Reranking.Rleb b a.

(** Readings of a result used to state the properties of the engine. *)
Section ResultReadings.
Variable payload : Type.
Local Open Scope R_scope.

(** The code is present and not empty: [if not code] fails. *)
Definition has_code (x : Reranking.result payload) : bool :=
  match Reranking.code x with
  | Some (_ :: _) => true
  | _ => false
  end.

(** [item.get('score', 0.5)] *)
Definition base_score (x : Reranking.result payload) : R :=
  match Reranking.score x with Some s => s | None => 5 / 10 end.

(** [x.get('score', 0)] *)
Definition raw_score (x : Reranking.result payload) : R :=
  match Reranking.score x with Some s => s | None => 0 end.

(** [selection_counts.get(code, 0)] *)
Definition count_of (selection_counts : Reranking.counts) (c : str) : Z :=
  match selection_counts c with Some n => n | None => 0%Z end.

(** The keys the engine never writes. *)
Definition untouched (x : Reranking.result payload)
  : option str * option R * payload :=
  (Reranking.code x, Reranking.score x, Reranking.other x).
End ResultReadings.

(** Two results of a pipeline with equal scores; "B" was selected once. *)
Definition result_A : Reranking.result unit :=
  Reranking.Result (Some (lit "A")) (Some (8 / 10)%R) None None None tt.
Definition result_B : Reranking.result unit :=
  Reranking.Result (Some (lit "B")) (Some (8 / 10)%R) None None None tt.
Definition result_C : Reranking.result unit :=
  Reranking.Result (Some (lit "C")) (Some (9 / 10)%R) None None None tt.
Definition selected_B_once : Reranking.counts :=
  fun c => if str_eqb c (lit "B") then Some 1%Z else None.
Definition never_selected : Reranking.counts := fun _ => None.

(** A result that carries no code. *)
Definition result_without_code : Reranking.result unit :=
  Reranking.Result None (Some (7 / 10)%R) None None None tt.

(** A lower-case letter, a digit or a space. *)
Definition normal_char (c : ascii) : bool :=
  let n := nat_of_ascii c in
  ((97 <=? n) && (n <=? 122)) || ((48 <=? n) && (n <=? 57)) || (n =? 32).

(** The text the substring stage searches for one document. *)
Definition blob (it : Autocomplete.item) : str :=
  Autocomplete.normalize
    (Autocomplete.term it ++ lit " " ++ Autocomplete.code it ++ lit " "
     ++ Autocomplete.definition it).

(** The score a stage gives to document [id]: the score of its row in the
    table of the stage, 0 when there is no such row. *)
Definition score_at {X : Type} (table : list X) (score_of : X -> Q)
           (id : nat) : Q :=
  match nth_error table id with
  | Some x => score_of x
  | None => 0%Q
  end.

(** Descending order of rational scores. *)
Definition Qdescending (a b : Q) : bool := Qle_bool b a.

(** Two mapping results hold the same candidates under the same keys, up
    to the order of each list and the three keys the engine writes. *)
Definition same_candidates {payload : Type}
           (m m' : RerankingEngine.mapping payload) : Prop :=
  forall k,
    match m k, m' k with
    | None, None => True
    | Some l, Some l' =>
        Permutation (map (@untouched payload) l') (map (@untouched payload) l)
    | _, _ => False
    end.

(** Descending order of counts. *)
Definition Zdescending (a b : Z) : bool := (b <=? a)%Z.

(** A mapping result for "siddha" holding two lists of candidates. *)
Definition toy_mapping : RerankingEngine.mapping unit :=
  fun k =>
    if str_eqb k (lit "siddha_candidates") then Some [result_A; result_B]
    else if str_eqb k (lit "icd11_tm2_candidates") then Some [result_C]
    else None.
Definition toy_counts : RerankingEngine.selection_counts :=
  RerankingEngine.SelectionCounts selected_B_once never_selected never_selected.

(** Candidates as dictionaries, for [_find_rank]. *)
Definition coded (c : String.string) : Database.dict :=
  [(lit "code", Database.VStr (lit c))].
Arguments coded c%_string_scope.

(** [t] holds the [limit] most selected codes of [items]: the entries
    with the highest counts, highest first, equal counts in the order of
    [items]. *)
Definition most_selected (items : list (str * Z)) (limit : nat)
           (t : list (str * Z)) : Prop :=
  length t = Nat.min limit (length items)
  /\ incl t items
  /\ sorted_by Zdescending (@snd str Z) t
  /\ (forall a b, In a t -> In b items -> ~ In b t -> (snd b <= snd a)%Z)
  /\ (forall n : Z, exists m,
        filter (fun e => (snd e =? n)%Z) t
        = firstn m (filter (fun e => (snd e =? n)%Z) items)).


(* ================================================================== *)
(** * Facts on stable sorting *)
(* ================================================================== *)

Section StableSortFacts.
Variables A K : Type.
Variable before : K -> K -> bool.
Variable key : A -> K.

Lemma insert_stable_perm (x : A) (l : list A) :
  Permutation (insert_stable before key x l) (x :: l).
Proof.
  induction l as [|y l IH]; simpl.
  - apply Permutation_refl.
  - destruct (before (key x) (key y)).
    + apply Permutation_refl.
    + eapply Permutation_trans; [apply perm_skip, IH | apply perm_swap].
Qed.

Lemma stable_sort_perm (l : list A) :
  Permutation (stable_sort before key l) l.
Proof.
  induction l as [|x l IH]; simpl.
  - constructor.
  - eapply Permutation_trans; [apply insert_stable_perm|].
    now apply perm_skip.
Qed.

Lemma stable_sort_length (l : list A) :
  length (stable_sort before key l) = length l.
Proof. apply Permutation_length, stable_sort_perm. Qed.

Lemma stable_sort_In (l : list A) (x : A) :
  In x (stable_sort before key l) <-> In x l.
Proof.
  split; apply Permutation_in;
    [|apply Permutation_sym]; apply stable_sort_perm.
Qed.

(** Elements that are pairwise tied keep their order when one more
    element is inserted. *)
Lemma insert_stable_filter (p : A -> bool) (x : A) (l : list A) :
  (forall y, In y l -> p x = true -> p y = true ->
             before (key x) (key y) = true) ->
  filter p (insert_stable before key x l) = filter p (x :: l).
Proof.
  induction l as [|y l IH]; intros Htie; simpl; [reflexivity|].
  destruct (before (key x) (key y)) eqn:Hb; simpl; [reflexivity|].
  rewrite IH by (intros z Hz; apply Htie; now right).
  simpl. destruct (p x) eqn:Hx; [|reflexivity].
  destruct (p y) eqn:Hy; [|reflexivity].
  rewrite (Htie y (or_introl eq_refl) eq_refl Hy) in Hb. discriminate.
Qed.

Lemma stable_sort_filter (p : A -> bool) (l : list A) :
  (forall x y, p x = true -> p y = true -> before (key x) (key y) = true) ->
  filter p (stable_sort before key l) = filter p l.
Proof.
  intros Htie. induction l as [|x l IH]; simpl; [reflexivity|].
  rewrite insert_stable_filter by (intros; now apply Htie).
  simpl. now rewrite IH.
Qed.

Lemma stable_sort_sorted_id (l : list A) :
  sorted_by before key l -> stable_sort before key l = l.
Proof.
  induction 1 as [|x l Hl IH Hx]; simpl; [reflexivity|].
  rewrite IH. destruct l as [|y l]; simpl; [reflexivity|].
  inversion Hx as [|? ? Hxy _]; subst. now rewrite Hxy.
Qed.

Hypothesis before_total :
  forall a b, before a b = true \/ before b a = true.
Hypothesis before_trans :
  forall a b c, before a b = true -> before b c = true -> before a c = true.

Lemma insert_stable_sorted (x : A) (l : list A) :
  sorted_by before key l -> sorted_by before key (insert_stable before key x l).
Proof.
  unfold sorted_by.
  induction 1 as [|y l Hl IH Hy]; simpl.
  - constructor; constructor.
  - destruct (before (key x) (key y)) eqn:Hb.
    + constructor; [now constructor|].
      constructor; [exact Hb|].
      rewrite Forall_forall in *. intros z Hz.
      eapply before_trans; [exact Hb | now apply Hy].
    + constructor; [exact IH|].
      rewrite Forall_forall in *. intros z Hz.
      apply (Permutation_in _ (insert_stable_perm x l)) in Hz.
      destruct Hz as [<-|Hz]; [|now apply Hy].
      destruct (before_total (key x) (key y)) as [H|H]; congruence.
Qed.

Lemma stable_sort_sorted (l : list A) :
  sorted_by before key (stable_sort before key l).
Proof.
  induction l as [|x l IH]; simpl.
  - constructor.
  - now apply insert_stable_sorted.
Qed.
End StableSortFacts.

(* ================================================================== *)
(** * Edit distance *)
(* ================================================================== *)

Section Levenshtein.
Import Autocomplete.

Lemma neq_cost_sym (x y : ascii) : neq_cost x y = neq_cost y x.
Proof. unfold neq_cost. now rewrite Ascii.eqb_sym. Qed.

Lemma cell_cost_sym (x y : option ascii) : cell_cost x y = cell_cost y x.
Proof. destruct x, y; simpl; auto using neq_cost_sym. Qed.

Lemma cell_cost_refl (x : option ascii) : cell_cost x x = 0.
Proof.
  destruct x; simpl; [|reflexivity].
  unfold neq_cost. now rewrite Ascii.eqb_refl.
Qed.

Lemma lev_table_0_r (a b : str) (i : nat) : lev_table a b i 0 = i.
Proof. destruct i; reflexivity. Qed.

Lemma lev_table_S (a b : str) (i j : nat) :
  lev_table a b (S i) (S j) =
  min3 (lev_table a b i (S j) + 1)
       (lev_table a b (S i) j + 1)
       (lev_table a b i j + cell_cost (nth_error a i) (nth_error b j)).
Proof. reflexivity. Qed.

Lemma lev_table_sym (a b : str) (i j : nat) :
  lev_table a b i j = lev_table b a j i.
Proof.
  revert j. induction i as [|i IHi]; intros j.
  - now rewrite lev_table_0_r.
  - induction j as [|j IHj].
    + now rewrite lev_table_0_r.
    + rewrite !lev_table_S, IHj, !IHi, cell_cost_sym.
      unfold min3. lia.
Qed.

Lemma lev_table_diag (a : str) (i : nat) : lev_table a a i i = 0.
Proof.
  induction i as [|i IH]; [reflexivity|].
  rewrite lev_table_S, IH, cell_cost_refl. unfold min3. lia.
Qed.

Lemma skipn_cons_nth {X : Type} (l : list X) (j : nat) (x : X) (r : list X) :
  skipn j l = x :: r -> nth_error l j = Some x /\ skipn (S j) l = r.
Proof.
  revert l. induction j as [|j IH]; intros [|y l] H; simpl in *;
    try discriminate.
  - now inversion H.
  - now apply IH.
Qed.

(** The inner loop writes row [i + 1] of the table. *)
Lemma inner_loop_table (a b : str) (i : nat) (c1 : ascii) :
  nth_error a i = Some c1 ->
  forall (s2 : str) (j : nat),
    skipn j b = s2 ->
    inner_loop c1 s2 (map (lev_table a b i) (seq j (length s2 + 1)))
               (lev_table a b (S i) j)
    = map (lev_table a b (S i)) (seq (S j) (length s2)).
Proof.
  intros Hc1. induction s2 as [|c2 s2 IH]; intros j Hs; [reflexivity|].
  apply skipn_cons_nth in Hs. destruct Hs as [Hc2 Hs].
  replace (length (c2 :: s2) + 1) with (S (S (length s2)))
    by (cbn [length]; lia).
  cbn [map inner_loop length seq].
  assert (Hv : min3 (lev_table a b i (S j) + 1)
                    (lev_table a b (S i) j + 1)
                    (lev_table a b i j + neq_cost c1 c2)
               = lev_table a b (S i) (S j))
    by (rewrite lev_table_S, Hc1, Hc2; reflexivity).
  rewrite Hv. f_equal.
  specialize (IH (S j) Hs).
  replace (length s2 + 1) with (S (length s2)) in IH by lia.
  cbn [seq map] in IH. exact IH.
Qed.

Lemma outer_loop_table (a b : str) :
  forall (s1 : str) (i : nat),
    skipn i a = s1 ->
    outer_loop i s1 b (map (lev_table a b i) (seq 0 (length b + 1)))
    = map (lev_table a b (i + length s1)) (seq 0 (length b + 1)).
Proof.
  induction s1 as [|c1 s1 IH]; intros i Hs; cbn [outer_loop length].
  - now rewrite Nat.add_0_r.
  - apply skipn_cons_nth in Hs. destruct Hs as [Hc1 Hs].
    replace (i + S (length s1)) with (S i + length s1) by lia.
    rewrite <- (IH (S i) Hs). f_equal.
    pose proof (@inner_loop_table a b i c1 Hc1 b 0 eq_refl) as H.
    rewrite (lev_table_0_r a b (S i)) in H.
    replace (i + 1) with (S i) by lia. rewrite H.
    replace (length b + 1) with (S (length b)) by lia.
    cbn [seq map]. now rewrite (lev_table_0_r a b (S i)).
Qed.

Lemma levenshtein_rows_table (s1 s2 : str) :
  levenshtein_rows s1 s2 = lev_table s1 s2 (length s1) (length s2).
Proof.
  unfold levenshtein_rows.
  destruct (Nat.eqb_spec (length s2) 0) as [H0|H0].
  - now rewrite H0, lev_table_0_r.
  - pose proof (@outer_loop_table s1 s2 s1 0 eq_refl) as H.
    assert (Hid : map (lev_table s1 s2 0) (seq 0 (length s2 + 1))
                  = seq 0 (length s2 + 1)) by apply map_id.
    rewrite Hid in H. rewrite H. cbn [Nat.add].
    rewrite seq_app, map_app. cbn [seq map].
    now rewrite last_last.
Qed.

Lemma levenshtein_distance_table (s1 s2 : str) :
  levenshtein_distance s1 s2 = lev_table s1 s2 (length s1) (length s2).
Proof.
  unfold levenshtein_distance.
  destruct (length s1 <? length s2).
  - rewrite levenshtein_rows_table. apply lev_table_sym.
  - apply levenshtein_rows_table.
Qed.

(** C9. The edit distance of a string to itself is 0, and the distance
    does not depend on the order of its two arguments: for all strings
    [x], [a], [b], [levenshtein_distance x x = 0] and
    [levenshtein_distance a b = levenshtein_distance b a]. *)
Theorem levenshtein_distance_identity_symmetry :
  (forall x : str, levenshtein_distance x x = 0) /\
  (forall a b : str, levenshtein_distance a b = levenshtein_distance b a).
Proof.
  split.
  - intros x. rewrite levenshtein_distance_table. apply lev_table_diag.
  - intros a b. rewrite !levenshtein_distance_table. apply lev_table_sym.
Qed.
End Levenshtein.

(* ================================================================== *)
(** * Autocomplete *)
(* ================================================================== *)

Section AutocompleteFacts.
Import Autocomplete.


Lemma lower_allowed_fixed (c : ascii) :
  allowed (lower c) = true -> lower (lower c) = lower c.
Proof.
  destruct c as [[] [] [] [] [] [] [] []]; vm_compute;
    intros H; try reflexivity; discriminate H.
Qed.

Lemma normalize_idempotent (text : str) :
  normalize (normalize text) = normalize text.
Proof.
  unfold normalize. induction text as [|c t IH]; [reflexivity|].
  cbn [map filter]. destruct (allowed (lower c)) eqn:Hc.
  - cbn [map filter]. rewrite (lower_allowed_fixed _ Hc), Hc.
    now f_equal.
  - exact IH.
Qed.

Lemma fold_left_min_spec (l : list nat) (d : nat) :
  is_minimum (fold_left Nat.min l d) (d :: l).
Proof.
  revert d. induction l as [|x l IH]; intros d; cbn [fold_left].
  - split; [now left | apply Forall_cons; [lia | constructor]].
  - destruct (IH (Nat.min d x)) as [Hin Hle]. split.
    + destruct Hin as [Hin|Hin]; [|now right; right].
      rewrite <- Hin.
      destruct (Nat.min_spec d x) as [[_ ->]|[_ ->]];
        [now left | now right; left].
    + inversion Hle as [|? ? Hm Hl]; subst.
      apply Forall_cons; [lia|]. apply Forall_cons; [lia|]. exact Hl.
Qed.

(** The distance kept for a document is the least of the distances the
    stage compares. *)
Lemma best_distance_minimum (query_norm : str) (it : item) :
  is_minimum (best_distance query_norm it) (fuzzy_distances query_norm it).
Proof.
  unfold best_distance, fuzzy_distances.
  set (td := levenshtein_distance query_norm (normalize (term it))).
  set (cd := levenshtein_distance query_norm (normalize (code it))).
  set (ws := map _ _).
  destruct ws as [|w ws]; cbn [min_of min_with_inf].
  - split.
    + destruct (Nat.min_spec td cd) as [[_ ->]|[_ ->]];
        [now left | now right; left].
    + apply Forall_cons; [lia|]. apply Forall_cons; [lia|]. constructor.
  - destruct (fold_left_min_spec ws w) as [Hin Hle].
    set (m := fold_left Nat.min ws w) in *. split.
    + destruct (Nat.min_spec (Nat.min td cd) m) as [[_ ->]|[_ ->]].
      * destruct (Nat.min_spec td cd) as [[_ ->]|[_ ->]];
          [now left | now right; left].
      * now right; right.
    + apply Forall_cons; [lia|]. apply Forall_cons; [lia|].
      eapply Forall_impl; [|exact Hle]. cbv beta. intros; lia.
Qed.

Lemma leb_total (a b : nat) : (a <=? b) = true \/ (b <=? a) = true.
Proof. rewrite !Nat.leb_le. lia. Qed.

Lemma leb_trans (a b c : nat) :
  (a <=? b) = true -> (b <=? c) = true -> (a <=? c) = true.
Proof. rewrite !Nat.leb_le. lia. Qed.

Lemma flat_map_filter_map {X Y : Type} (f : X -> Y) (p : X -> bool)
      (l : list X) :
  flat_map (fun x => if p x then [f x] else []) l = map f (filter p l).
Proof.
  induction l as [|x l IH]; [reflexivity|].
  cbn [flat_map filter]. rewrite IH. destruct (p x); reflexivity.
Qed.

(** What [fuzzy_match_terms] collects before it sorts. *)
Lemma fuzzy_collect_spec (query_norm : str) (dataset : list item) (k : nat) :
  flat_map (fun it =>
              let d := best_distance query_norm it in
              if d <=? k then [(it, d)] else []) dataset
  = map (fun it => (it, best_distance query_norm it))
        (filter (fun it => best_distance query_norm it <=? k) dataset).
Proof.
  exact (flat_map_filter_map
           (fun it => (it, best_distance query_norm it))
           (fun it => best_distance query_norm it <=? k) dataset).
Qed.

Lemma fuzzy_match_terms_spec (query_norm : str) (dataset : list item) (k : nat) :
  normalize query_norm = query_norm ->
  let fm := fuzzy_match_terms query_norm dataset k in
  Permutation (map fst fm)
              (filter (fun it => best_distance query_norm it <=? k) dataset)
  /\ Forall (fun m => snd m = best_distance query_norm (fst m)
                      /\ snd m <= k /\ In (fst m) dataset) fm
  /\ sorted_by Nat.leb (@snd item nat) fm.
Proof.
  intros Hq fm. subst fm. unfold fuzzy_match_terms. cbv zeta.
  rewrite Hq, fuzzy_collect_spec.
  set (kept := filter _ dataset).
  split; [|split].
  - eapply Permutation_trans;
      [apply Permutation_map, stable_sort_perm|].
    rewrite map_map. cbn [fst]. rewrite map_id. apply Permutation_refl.
  - apply Forall_forall. intros [it d] Hin.
    apply stable_sort_In, in_map_iff in Hin.
    destruct Hin as [it' [Heq Hin]]. inversion Heq; subst. cbn [fst snd].
    apply filter_In in Hin. destruct Hin as [Hin Hle].
    apply Nat.leb_le in Hle. auto.
  - apply stable_sort_sorted; [apply leb_total | apply leb_trans].
Qed.







(** C6 (behaviour of the code).  For every query whose normalized form
    has fewer than 2 characters, [autocomplete_search] returns a
    dictionary with empty [results] and empty [fuzzy_suggestions] and
    WITHOUT the key [has_fuzzy]: the early return builds
    [{"results": [], "fuzzy_suggestions": []}] only. *)
Theorem autocomplete_short_query_has_no_has_fuzzy
        (query : str) (dataset : list item) :
  length (normalize query) < 2 ->
  autocomplete_search query dataset
  = {| results := []; fuzzy_suggestions := []; has_fuzzy := None |}.
Proof.
  intros H. unfold autocomplete_search.
  destruct (Nat.ltb_spec (length (normalize query)) 2); [reflexivity|lia].
Qed.

Lemma autocomplete_short_query_has_no_has_fuzzy_witness :
  length (normalize (lit "a")) < 2
  /\ has_fuzzy (autocomplete_search (lit "a") sample_data) = None.
Proof.
  assert (H : length (normalize (lit "a")) < 2) by (vm_compute; lia).
  split; [exact H|].
  now rewrite (autocomplete_short_query_has_no_has_fuzzy (lit "a") sample_data H).
Defined.

(** ** The query "febr" against "Fever disorder" *)

Lemma febr_normal : normalize (lit "febr") = lit "febr".
Proof. reflexivity. Qed.

Lemma febr_fever : levenshtein_distance (lit "febr") (lit "fever") = 2.
Proof. reflexivity. Qed.

Lemma best_distance_fever (c d : str) :
  best_distance (lit "febr") (fever_item c d)
  = Nat.min 2 (levenshtein_distance (lit "febr") (normalize c)).
Proof.
  unfold best_distance, fever_item. cbn [term code].
  set (cd := levenshtein_distance (lit "febr") (normalize c)).
  assert (Ht : levenshtein_distance (lit "febr")
                 (normalize (lit "Fever disorder")) = 11)
    by (vm_compute; reflexivity).
  assert (Hw : min_of (map (levenshtein_distance (lit "febr"))
                 (filter (fun word => 2 <? length word)
                         (split (normalize (lit "Fever disorder")))))
               = Some 2)
    by (vm_compute; reflexivity).
  rewrite Ht, Hw. cbn [min_with_inf]. lia.
Qed.

(** C8 (refuted as stated).  On the catalog holding only the document
    SP42 "Fever disorder" of the repository's test, the query "febr" has
    no prefix or substring hit and is answered by the fuzzy stage, but
    the suggestion carries distance 2, not 1, and
    [levenshtein_distance "febr" "fever"] is 2, not 1. *)
Lemma febr_distance_is_not_one :
  let r := autocomplete_search (lit "febr")
             [fever_item (lit "SP42") (lit "High body temperature")] in
  staged_matches (normalize (lit "febr"))
    [fever_item (lit "SP42") (lit "High body temperature")] = []
  /\ map distance (fuzzy_suggestions r) = [2]
  /\ ~ (exists s, In s (fuzzy_suggestions r) /\ distance s = 1)
  /\ levenshtein_distance (lit "febr") (lit "fever") <> 1.
Proof.
  cbv zeta. split; [reflexivity|]. split; [reflexivity|]. split.
  - intros [s [Hin Hd]].
    apply (in_map distance) in Hin.
    assert (Hm : map distance
              (fuzzy_suggestions
                 (autocomplete_search (lit "febr")
                    [fever_item (lit "SP42") (lit "High body temperature")]))
            = [2]) by reflexivity.
    rewrite Hm in Hin. destruct Hin as [Hin|[]]. congruence.
  - rewrite febr_fever. discriminate.
Qed.

(** C8 (amended).  For every code and definition, when the query "febr"
    has no prefix or substring hit on the catalog holding only a
    document whose term is "Fever disorder", [autocomplete_search]
    returns that document as the only fuzzy suggestion and the only
    result, with [has_fuzzy] true and with distance 2, or the distance
    of the query to the normalized code when that is smaller; and
    [levenshtein_distance "febr" "fever"] is 2. *)
Theorem febr_fever_suggestion (c d : str) :
  staged_matches (lit "febr") [fever_item c d] = [] ->
  let r := autocomplete_search (lit "febr") [fever_item c d] in
  fuzzy_suggestions r
  = [ {| sug_item := fever_item c d;
         distance := Nat.min 2 (levenshtein_distance (lit "febr") (normalize c));
         suggestion_text := lit "Did you mean 'Fever disorder'?" |} ]
  /\ results r = [fever_item c d]
  /\ has_fuzzy r = Some true
  /\ levenshtein_distance (lit "febr") (lit "fever") = 2.
Proof.
  intros Hst r. subst r. unfold autocomplete_search.
  rewrite febr_normal, Hst.
  change ((length (lit "febr") <? 2)) with false.
  change ((length (@nil item) =? 0) && (3 <=? length (lit "febr"))) with true.
  cbv iota.
  unfold fuzzy_match_terms. rewrite febr_normal. cbn [flat_map app].
  cbv zeta. rewrite best_distance_fever.
  set (m := Nat.min 2 _).
  assert (Hm : (m <=? 2) = true) by (apply Nat.leb_le; subst m; lia).
  rewrite Hm. cbn.
  repeat split; reflexivity.
Qed.

Lemma febr_fever_suggestion_witness :
  staged_matches (lit "febr")
    [fever_item (lit "SP42") (lit "High body temperature")] = []
  /\ has_fuzzy (autocomplete_search (lit "febr")
       [fever_item (lit "SP42") (lit "High body temperature")]) = Some true.
Proof.
  assert (Hst : staged_matches (lit "febr")
            [fever_item (lit "SP42") (lit "High body temperature")] = [])
    by (vm_compute; reflexivity).
  split; [exact Hst|].
  exact (proj1 (proj2 (proj2
           (febr_fever_suggestion (lit "SP42") (lit "High body temperature") Hst)))).
Defined.
End AutocompleteFacts.

(* ================================================================== *)
(** * The cascading pipeline *)
(* ================================================================== *)

Section OptionLoops.
Import Search.
Variables X Y : Type.
Variable f : X -> option Y.

Lemma for_each_In (l : list X) (ys : list Y) :
  for_each f l = Some ys ->
  forall y, In y ys -> exists x, In x l /\ f x = Some y.
Proof.
  revert ys. induction l as [|x l IH]; intros ys H y Hy; cbn in H.
  - inversion H; subst. destruct Hy.
  - destruct (f x) as [y0|] eqn:Hx; [|discriminate]. cbn in H.
    destruct (for_each f l) as [ys0|]; [|discriminate]. cbn in H.
    inversion H; subst. destruct Hy as [<-|Hy].
    + exists x. split; [now left | exact Hx].
    + destruct (IH ys0 eq_refl y Hy) as [x' [Hin Hfx]].
      exists x'. split; [now right | exact Hfx].
Qed.

Lemma for_each_length (l : list X) (ys : list Y) :
  for_each f l = Some ys -> length ys = length l.
Proof.
  revert ys. induction l as [|x l IH]; intros ys H; cbn in H.
  - now inversion H.
  - destruct (f x); [|discriminate]. cbn in H.
    destruct (for_each f l) as [ys0|]; [|discriminate]. cbn in H.
    inversion H; subst. cbn. f_equal. now apply IH.
Qed.

Lemma for_each_total (l : list X) :
  (forall x, In x l -> exists y, f x = Some y) ->
  exists ys, for_each f l = Some ys.
Proof.
  induction l as [|x l IH]; intros H; cbn.
  - now exists [].
  - destruct (H x (or_introl eq_refl)) as [y ->]. cbn.
    destruct IH as [ys ->]; [intros; apply H; now right|].
    cbn. now eexists.
Qed.
End OptionLoops.

Section SortedLists.
Variable X : Type.

Lemma StronglySorted_snoc (R : X -> X -> Prop) (l : list X) (a : X) :
  StronglySorted R l -> Forall (fun x => R x a) l ->
  StronglySorted R (l ++ [a]).
Proof.
  induction 1 as [|b l Hs IH Hb]; intros Ha; cbn.
  - constructor; constructor.
  - inversion Ha as [|? ? Hba Hl]; subst.
    constructor; [now apply IH|].
    apply Forall_app. split; [exact Hb | now constructor].
Qed.

Variable R : X -> X -> Prop.

Lemma StronglySorted_app_cross (l1 l2 : list X) :
  StronglySorted R (l1 ++ l2) ->
  forall x y, In x l1 -> In y l2 -> R x y.
Proof.
  induction l1 as [|a l1 IH]; intros H x y Hx Hy; [destruct Hx|].
  cbn in H. apply StronglySorted_inv in H. destruct H as [Hs Ha].
  destruct Hx as [<-|Hx].
  - rewrite Forall_forall in Ha. apply Ha, in_or_app. now right.
  - now apply IH.
Qed.

Lemma StronglySorted_app_l (l1 l2 : list X) :
  StronglySorted R (l1 ++ l2) -> StronglySorted R l1.
Proof.
  induction l1 as [|a l1 IH]; intros H; [constructor|].
  cbn in H. apply StronglySorted_inv in H. destruct H as [Hs Ha].
  constructor; [now apply IH|].
  rewrite Forall_forall in *. intros z Hz. apply Ha, in_or_app. now left.
Qed.

Lemma StronglySorted_rev (l : list X) :
  StronglySorted R l -> StronglySorted (fun x y => R y x) (rev l).
Proof.
  induction 1 as [|a l Hs IH Ha]; cbn; [constructor|].
  apply StronglySorted_snoc; [exact IH|].
  rewrite Forall_forall in *. intros x Hx. apply Ha. now apply in_rev.
Qed.
End SortedLists.

Section ArgsortStable.
Import Search.

Lemma Qle_bool_total (a b : Q) : Qle_bool a b = true \/ Qle_bool b a = true.
Proof.
  rewrite !Qle_bool_iff.
  destruct (Qlt_le_dec a b) as [H|H]; [left; now apply Qlt_le_weak | now right].
Qed.

Lemma Qle_bool_trans (a b c : Q) :
  Qle_bool a b = true -> Qle_bool b c = true -> Qle_bool a c = true.
Proof. rewrite !Qle_bool_iff. apply Qle_trans. Qed.

Lemma argsort_stable_contract : argsort_contract argsort_stable.
Proof.
  intros scores. unfold argsort_stable. split.
  - apply stable_sort_perm.
  - apply stable_sort_sorted; [apply Qle_bool_total | apply Qle_bool_trans].
Qed.
End ArgsortStable.

Section PipelineFacts.
Import Search.
Variable argsort : list Q -> list nat.
Variable bm25_get_scores : str -> list Q.
Variables tfidf_row tfidf_vec embedding : Type.
Variable tfidf_transform : str -> tfidf_vec.
Variable tfidf_matrix : list tfidf_row.
Variable dot : tfidf_row -> tfidf_vec -> Q.
Variable encode : str -> embedding.
Variable embeddings : list embedding.
Variable cos_sim : embedding -> embedding -> Q.
Variables codes terms : list str.

Lemma top_length (k : nat) (scores : list Q) :
  length (top argsort k scores) <= k.
Proof. apply firstn_le_length. Qed.

Lemma top_In (k : nat) (scores : list Q) (i : nat) :
  In i (top argsort k scores) -> In i (argsort scores).
Proof.
  intros H. apply in_rev. unfold top in H.
  rewrite <- (firstn_skipn k (rev (argsort scores))).
  apply in_or_app. now left.
Qed.

Lemma top_bound (k : nat) (scores : list Q) (i : nat) :
  argsort_contract argsort ->
  In i (top argsort k scores) -> i < length scores.
Proof.
  intros Hc H. apply top_In in H.
  destruct (Hc scores) as [Hp _].
  apply (Permutation_in _ Hp), in_seq in H. lia.
Qed.

Lemma take_length {X : Type} (a : list X) (ids : list nat) (xs : list X) :
  take a ids = Some xs -> length xs = length ids.
Proof. apply for_each_length. Qed.

Lemma take_total {X : Type} (a : list X) (ids : list nat) :
  (forall i, In i ids -> i < length a) -> exists xs, take a ids = Some xs.
Proof.
  intros H. apply for_each_total. intros i Hi.
  destruct (nth_error a i) as [x|] eqn:Hx; [now exists x|].
  apply nth_error_None in Hx. specialize (H i Hi). lia.
Qed.

(** Whatever stage 2 returns is made of entries of its input. *)
Lemma tfidf_rerank_incl (query : str) (ids : list nat) (k : nat)
      (out : list nat) :
  tfidf_rerank argsort tfidf_transform tfidf_matrix dot query ids k = Some out ->
  incl out ids /\ length out <= k.
Proof.
  unfold tfidf_rerank. intros H.
  destruct (take tfidf_matrix ids) as [sub|]; [|discriminate].
  cbn [bind] in H. split.
  - intros id Hid.
    destruct (for_each_In _ _ H id Hid) as [i [_ Hi]].
    eapply nth_error_In, Hi.
  - rewrite (for_each_length _ _ H). apply top_length.
Qed.

Lemma tfidf_rerank_returns (query : str) (ids : list nat) (k : nat) :
  argsort_contract argsort ->
  (forall id, In id ids -> id < length tfidf_matrix) ->
  exists out,
    tfidf_rerank argsort tfidf_transform tfidf_matrix dot query ids k = Some out.
Proof.
  intros Hc Hids. unfold tfidf_rerank.
  destruct (take_total tfidf_matrix ids Hids) as [sub Hsub].
  rewrite Hsub. cbn [bind]. apply for_each_total. intros i Hi.
  apply top_bound in Hi; [|exact Hc].
  rewrite length_map, (take_length _ _ Hsub) in Hi.
  destruct (nth_error ids i) as [x|] eqn:Hx; [now exists x|].
  apply nth_error_None in Hx. lia.
Qed.

(** Whatever stage 3 returns carries codes of entries of its input. *)
Lemma semantic_rerank_incl (query : str) (ids : list nat) (k : nat)
      (out : list candidate) :
  semantic_rerank argsort encode embeddings cos_sim codes terms query ids k
  = Some out ->
  (forall c, In c out ->
     exists id, In id ids
       /\ nth_error codes id = Some (code c)
       /\ nth_error terms id = Some (term c))
  /\ length out <= k.
Proof.
  unfold semantic_rerank. intros H.
  destruct (take embeddings ids) as [sub|]; [|discriminate].
  cbn [bind] in H. split.
  - intros c Hc.
    destruct (for_each_In _ _ H c Hc) as [i [_ Hi]].
    destruct (nth_error ids i) as [id|] eqn:Hid; [|discriminate].
    cbn [bind] in Hi.
    destruct (nth_error codes id) as [cd|] eqn:Hcd; [|discriminate].
    cbn [bind] in Hi.
    destruct (nth_error terms id) as [tm|] eqn:Htm; [|discriminate].
    cbn [bind] in Hi.
    destruct (nth_error (map _ sub) i) as [sc|]; [|discriminate].
    cbn [bind] in Hi. inversion Hi; subst. cbn [code term].
    exists id. split; [eapply nth_error_In, Hid | split; assumption].
  - rewrite (for_each_length _ _ H). apply top_length.
Qed.

Lemma nth_error_lt_Some {X : Type} (l : list X) (i : nat) :
  i < length l -> exists x, nth_error l i = Some x.
Proof.
  intros H. destruct (nth_error l i) as [x|] eqn:Hx; [now exists x|].
  apply nth_error_None in Hx. lia.
Qed.

Lemma semantic_rerank_returns (query : str) (ids : list nat) (k : nat) :
  argsort_contract argsort ->
  (forall id, In id ids ->
     id < length embeddings /\ id < length codes /\ id < length terms) ->
  exists out,
    semantic_rerank argsort encode embeddings cos_sim codes terms query ids k
    = Some out.
Proof.
  intros Hc Hids. unfold semantic_rerank.
  destruct (take_total embeddings ids) as [sub Hsub];
    [intros id Hid; now apply Hids|].
  rewrite Hsub. cbn [bind]. apply for_each_total. intros i Hi.
  apply top_bound in Hi; [|exact Hc].
  assert (Hi' : i < length ids)
    by now rewrite length_map, (take_length _ _ Hsub) in Hi.
  destruct (nth_error_lt_Some ids Hi') as [id Hid]. rewrite Hid.
  cbn [bind].
  destruct (Hids id (nth_error_In _ _ Hid)) as [_ [Hcd Htm]].
  destruct (nth_error_lt_Some codes Hcd) as [cd ->]. cbn [bind].
  destruct (nth_error_lt_Some terms Htm) as [tm ->]. cbn [bind].
  destruct (nth_error_lt_Some _ Hi) as [sc ->]. cbn [bind].
  now eexists.
Qed.

(** C1. For every query the cascade narrows.  Whatever stage 2 returns
    on the stage-1 survivors is a list of stage-1 survivors, of at most 60
    entries; whatever stage 3 returns on those is a list of at most 10
    candidates, each carrying the code and term of a stage-2 survivor.
    With an [argsort] that returns a permutation of the indices and the
    three indexes aligned with the catalog, both stages do return, and the
    stage-3 list is the output of [search_siddha]. *)
Theorem pipeline_narrows (query : str) :
  let bm25_ids := bm25_search argsort bm25_get_scores query 100 in
  length bm25_ids <= 100
  /\ (forall tfidf_ids,
        tfidf_rerank argsort tfidf_transform tfidf_matrix dot query bm25_ids 60
        = Some tfidf_ids ->
        incl tfidf_ids bm25_ids
        /\ length tfidf_ids <= 60
        /\ (forall candidates,
              semantic_rerank argsort encode embeddings cos_sim codes terms
                query tfidf_ids 10 = Some candidates ->
              (forall c, In c candidates ->
                 exists id, In id tfidf_ids
                   /\ nth_error codes id = Some (code c)
                   /\ nth_error terms id = Some (term c))
              /\ length candidates <= 10))
  /\ (argsort_contract argsort ->
      (forall q, length (bm25_get_scores q) = length codes) ->
      length tfidf_matrix = length codes ->
      length embeddings = length codes ->
      length terms = length codes ->
      exists tfidf_ids candidates,
        tfidf_rerank argsort tfidf_transform tfidf_matrix dot query bm25_ids 60
        = Some tfidf_ids
        /\ semantic_rerank argsort encode embeddings cos_sim codes terms
             query tfidf_ids 10 = Some candidates
        /\ search_siddha argsort bm25_get_scores tfidf_transform tfidf_matrix
             dot encode embeddings cos_sim codes terms query
           = Some candidates).
Proof.
  intros bm25_ids. split; [apply top_length|]. split.
  - intros tfidf_ids H2.
    destruct (tfidf_rerank_incl _ _ _ H2) as [Hincl Hlen2].
    split; [exact Hincl|]. split; [exact Hlen2|].
    intros candidates H3. exact (semantic_rerank_incl _ _ _ H3).
  - intros Hc Hbm Htf Hem Htm.
    assert (H1 : forall id, In id bm25_ids -> id < length codes).
    { intros id Hid. apply top_bound in Hid; [|exact Hc].
      now rewrite Hbm in Hid. }
    destruct (@tfidf_rerank_returns query bm25_ids 60 Hc) as [tfidf_ids H2];
      [intros id Hid; rewrite Htf; now apply H1|].
    destruct (tfidf_rerank_incl _ _ _ H2) as [Hincl _].
    destruct (@semantic_rerank_returns query tfidf_ids 10 Hc) as [cands H3].
    { intros id Hid. apply Hincl, H1 in Hid. rewrite Hem, Htm. auto. }
    exists tfidf_ids, cands.
    split; [exact H2|]. split; [exact H3|].
    unfold search_siddha. fold bm25_ids. rewrite H2. cbn [bind].
    rewrite H3. reflexivity.
Qed.
End PipelineFacts.

Lemma pipeline_narrows_witness :
  exists tfidf_ids candidates,
    toy_search_siddha (lit "fever") = Some candidates
    /\ incl tfidf_ids
            (Search.bm25_search Search.argsort_stable toy_bm25 (lit "fever") 100)
    /\ length candidates <= 10.
Proof.
  pose proof (@pipeline_narrows
                Search.argsort_stable toy_bm25 Q unit Q
                (fun _ : str => tt) toy_rows (fun (row : Q) (_ : unit) => row)
                (fun _ : str => 1%Q) toy_embeddings (fun q e : Q => (q * e)%Q)
                toy_codes toy_terms (lit "fever")) as [_ [Hnarrow Hreturns]].
  destruct (Hreturns argsort_stable_contract
                     (fun _ => eq_refl) eq_refl eq_refl eq_refl)
    as [tfidf_ids [candidates [H2 [H3 Hs]]]].
  destruct (Hnarrow tfidf_ids H2) as [Hincl [_ Hcands]].
  exists tfidf_ids, candidates.
  split; [exact Hs|]. split; [exact Hincl|].
  exact (proj2 (Hcands candidates H3)).
Defined.

Section Stage1Facts.
Import Search.
Variable argsort : list Q -> list nat.
Variable bm25_get_scores : str -> list Q.

(** C5 (amended).  With an [argsort] that returns the indices in
    ascending order of score, stage 1 keeps min(100, corpus size)
    distinct documents, in descending order of BM25 score, and no
    document left out scores more than a document kept.  Nothing is
    promised on the order of documents with equal scores. *)
Theorem bm25_search_keeps_top (query : str) :
  argsort_contract argsort ->
  let scores := bm25_get_scores query in
  let score_of := fun i => nth i scores 0%Q in
  let out := bm25_search argsort bm25_get_scores query 100 in
  length out = Nat.min 100 (length scores)
  /\ NoDup out
  /\ (forall i, In i out -> i < length scores)
  /\ sorted_by (fun a b => Qle_bool b a) score_of out
  /\ (forall i j, In i out -> j < length scores -> ~ In j out ->
        (score_of j <= score_of i)%Q).
Proof.
  intros Hc scores score_of out.
  destruct (Hc scores) as [Hperm Hsorted].
  assert (Hsplit : rev (argsort scores)
                   = out ++ skipn 100 (rev (argsort scores)))
    by (symmetry; apply firstn_skipn).
  assert (Hdesc : StronglySorted
                    (fun x y => Qle_bool (score_of y) (score_of x) = true)
                    (rev (argsort scores)))
    by (apply StronglySorted_rev; exact Hsorted).
  split; [|split; [|split; [|split]]].
  - unfold out, bm25_search, top. fold scores.
    rewrite length_firstn, length_rev, (Permutation_length Hperm), length_seq.
    reflexivity.
  - apply (NoDup_app_remove_r out (skipn 100 (rev (argsort scores)))).
    rewrite <- Hsplit. apply NoDup_rev.
    apply (Permutation_NoDup (Permutation_sym Hperm)), seq_NoDup.
  - intros i Hi. eapply top_bound; [exact Hc | exact Hi].
  - unfold sorted_by. rewrite Hsplit in Hdesc.
    eapply StronglySorted_app_l, Hdesc.
  - intros i j Hi Hj Hnot.
    assert (Hin : In j (rev (argsort scores))).
    { apply (proj1 (in_rev _ _)).
      apply (Permutation_in _ (Permutation_sym Hperm)).
      apply in_seq. lia. }
    rewrite Hsplit in Hin, Hdesc. apply in_app_or in Hin.
    destruct Hin as [Hin|Hin]; [contradiction|].
    apply Qle_bool_iff.
    exact (@StronglySorted_app_cross _ _ _ _ Hdesc i j Hi Hin).
Qed.
End Stage1Facts.

Lemma bm25_search_keeps_top_witness :
  length (Search.bm25_search Search.argsort_stable toy_bm25 (lit "fever") 100)
  = Nat.min 100 (length (toy_bm25 (lit "fever"))).
Proof.
  exact (proj1 (@bm25_search_keeps_top Search.argsort_stable toy_bm25
                  (lit "fever") argsort_stable_contract)).
Defined.

(** C5 (refuted as stated).  Two documents with the same BM25 score, and
    an [argsort] that keeps equal scores in index order: the reversal in
    [np.argsort(scores)[::-1]] ranks the later document first, so ties
    are not broken by catalog order. *)
Lemma bm25_ties_later_document_first :
  argsort_contract Search.argsort_stable
  /\ Search.bm25_search Search.argsort_stable
       (fun _ : str => [0; 0]%Q) (lit "fever") 100 = [1; 0]
  /\ ~ ties_in_catalog_order [0; 0]%Q
         (Search.bm25_search Search.argsort_stable
            (fun _ : str => [0; 0]%Q) (lit "fever") 100).
Proof.
  split; [exact argsort_stable_contract|].
  split; [reflexivity|].
  intros H.
  specialize (H 0 1 1 0 (Nat.lt_0_1) eq_refl eq_refl (Qeq_refl _)).
  lia.
Qed.

(* ================================================================== *)
(** * The re-ranking engine *)
(* ================================================================== *)

Section BoostFacts.
Import Reranking.
Local Open Scope R_scope.

Lemma ln_10_pos : 0 < ln 10.
Proof. rewrite <- ln_1. apply ln_increasing; lra. Qed.

Lemma log10_1 : log10 1 = 0.
Proof. unfold log10. rewrite ln_1. lra. Qed.

Lemma log10_le (x y : R) : 0 < x -> x <= y -> log10 x <= log10 y.
Proof.
  intros Hx [Hlt | ->]; [|apply Rle_refl].
  unfold log10. pose proof ln_10_pos as H10.
  pose proof (ln_increasing x y Hx Hlt) as Hln.
  apply Rmult_le_compat_r; [|lra].
  apply Rlt_le, Rinv_0_lt_compat, H10.
Qed.

Lemma log10_pos (x : R) : 1 < x -> 0 < log10 x.
Proof.
  intros Hx. unfold log10. pose proof ln_10_pos as H10.
  assert (Hln : 0 < ln x) by (rewrite <- ln_1; apply ln_increasing; lra).
  apply Rmult_lt_0_compat; [exact Hln | now apply Rinv_0_lt_compat].
Qed.

Lemma log10_lt_1 (x : R) : 0 < x -> x < 10 -> log10 x < 1.
Proof.
  intros H0 Hx. unfold log10. pose proof ln_10_pos as H10.
  pose proof (ln_increasing x 10 H0 Hx) as Hln.
  apply (Rmult_lt_reg_r (ln 10)); [exact H10|].
  unfold Rdiv. rewrite Rmult_assoc, Rinv_l by lra. lra.
Qed.

Lemma calculate_boost_zero (n : Z) : (n <= 0)%Z -> calculate_boost n = 0.
Proof.
  intros H. unfold calculate_boost.
  destruct (Z.leb_spec n 0); [reflexivity | lia].
Qed.

Lemma calculate_boost_pos_eq (n : Z) :
  (0 < n)%Z ->
  calculate_boost n = Rmin (log10 (IZR (n + 1)) * BOOST_WEIGHT) MAX_BOOST.
Proof.
  intros H. unfold calculate_boost.
  destruct (Z.leb_spec n 0); [lia | reflexivity].
Qed.

Lemma calculate_boost_nonneg (n : Z) : 0 <= calculate_boost n.
Proof.
  destruct (Z_le_gt_dec n 0) as [H|H].
  - rewrite calculate_boost_zero by exact H. apply Rle_refl.
  - rewrite calculate_boost_pos_eq by lia.
    assert (Hlog : 0 < log10 (IZR (n + 1)))
      by (apply log10_pos, IZR_lt; lia).
    unfold BOOST_WEIGHT, MAX_BOOST.
    apply Rmin_case; [|lra].
    apply Rmult_le_pos; lra.
Qed.

Lemma calculate_boost_one : calculate_boost 1 = log10 2 * (1 / 10).
Proof.
  rewrite calculate_boost_pos_eq by lia.
  change (IZR (1 + 1)) with 2. unfold BOOST_WEIGHT, MAX_BOOST.
  assert (H : log10 2 < 1) by (apply log10_lt_1; lra).
  apply Rmin_left. lra.
Qed.

Lemma calculate_boost_one_pos : 0 < calculate_boost 1.
Proof.
  rewrite calculate_boost_one.
  assert (H : 0 < log10 2) by (apply log10_pos; lra). lra.
Qed.

(** C2. For every non-negative count the boost is
    [min(0.5, log10(count + 1) * 0.1)]; the boost of 0 is 0; the boost
    never decreases when the count grows; and it never exceeds 0.5.
    Floats are read as the real numbers they stand for. *)
Theorem calculate_boost_spec :
  (forall count : Z, (0 <= count)%Z ->
     calculate_boost count
     = Rmin (5 / 10) (log10 (IZR (count + 1)) * (1 / 10)))
  /\ calculate_boost 0 = 0
  /\ (forall c1 c2 : Z, (c1 <= c2)%Z ->
        calculate_boost c1 <= calculate_boost c2)
  /\ (forall count : Z, calculate_boost count <= 5 / 10).
Proof.
  split; [|split; [|split]].
  - intros count H. destruct (Z.eq_dec count 0) as [-> | Hne].
    + rewrite calculate_boost_zero by lia.
      change (IZR (0 + 1)) with 1. rewrite log10_1, Rmult_0_l.
      symmetry. apply Rmin_right. lra.
    + rewrite calculate_boost_pos_eq by lia.
      apply Rmin_comm.
  - apply calculate_boost_zero. lia.
  - intros c1 c2 H. destruct (Z_le_gt_dec c1 0) as [H1|H1].
    + rewrite (calculate_boost_zero H1). apply calculate_boost_nonneg.
    + rewrite !calculate_boost_pos_eq by lia.
      apply Rle_min_compat_r.
      apply Rmult_le_compat_r; [unfold BOOST_WEIGHT; lra|].
      apply log10_le; [apply IZR_lt; lia | apply IZR_le; lia].
  - intros count. destruct (Z_le_gt_dec count 0) as [H|H].
    + rewrite (calculate_boost_zero H). lra.
    + rewrite calculate_boost_pos_eq by lia. apply Rmin_r.
Qed.

Lemma calculate_boost_spec_witness :
  calculate_boost 10 = Rmin (5 / 10) (log10 (IZR (10 + 1)) * (1 / 10)).
Proof.
  apply (proj1 calculate_boost_spec 10%Z). lia.
Defined.
End BoostFacts.

Lemma sorted_by_map_ext {X Y K : Type} (before : K -> K -> bool)
      (f : X -> Y) (key1 : X -> K) (key2 : Y -> K) (l : list X) :
  (forall x, In x l -> key2 (f x) = key1 x) ->
  sorted_by before key1 l -> sorted_by before key2 (map f l).
Proof.
  unfold sorted_by. intros Hk Hs. induction Hs as [|a l Hs IH Ha]; cbn.
  - constructor.
  - constructor.
    + apply IH. intros x Hx. apply Hk. now right.
    + rewrite Forall_forall in *. intros y Hy.
      apply in_map_iff in Hy. destruct Hy as [x [<- Hx]].
      rewrite (Hk a (or_introl eq_refl)), (Hk x (or_intror Hx)).
      now apply Ha.
Qed.

Section RerankFacts.
Import Reranking.
Local Open Scope R_scope.
Variable payload : Type.
Implicit Types (item x y : result payload) (selection_counts : counts).

Lemma Rleb_true (a b : R) : Rleb a b = true <-> a <= b.
Proof. unfold Rleb. destruct (Rle_dec a b); split; intros; congruence. Qed.

Lemma Rleb_false (a b : R) : Rleb a b = false <-> b < a.
Proof.
  unfold Rleb. destruct (Rle_dec a b); split; intros; try congruence; lra.
Qed.

Lemma descending_total (a b : R) :
  descending a b = true \/ descending b a = true.
Proof. unfold descending. rewrite !Rleb_true. lra. Qed.

Lemma descending_trans (a b c : R) :
  descending a b = true -> descending b c = true -> descending a c = true.
Proof. unfold descending. rewrite !Rleb_true. lra. Qed.

Lemma apply_boost_uncoded selection_counts item :
  has_code item = false -> apply_boost selection_counts item = item.
Proof.
  unfold has_code, apply_boost.
  destruct (code item) as [[|a c]|]; intros H; [reflexivity|discriminate|reflexivity].
Qed.

Lemma apply_boost_coded selection_counts item :
  has_code item = true ->
  exists c,
    code item = Some c
    /\ apply_boost selection_counts item
       = {| code := code item;
            score := score item;
            final_score :=
              Some (base_score item
                    + calculate_boost (count_of selection_counts c));
            boost_applied :=
              Some (round3 (calculate_boost (count_of selection_counts c)));
            selection_count := Some (count_of selection_counts c);
            other := other item |}.
Proof.
  unfold has_code, apply_boost.
  destruct (code item) as [[|a c]|]; intros H; try discriminate.
  exists (a :: c). split; reflexivity.
Qed.

Lemma apply_boost_untouched selection_counts item :
  untouched (apply_boost selection_counts item) = untouched item.
Proof.
  unfold untouched, apply_boost.
  destruct (code item) as [[|a c]|] eqn:Hc; cbn; rewrite ?Hc; reflexivity.
Qed.

Lemma apply_boost_has_code selection_counts item :
  has_code (apply_boost selection_counts item) = has_code item.
Proof.
  pose proof (apply_boost_untouched selection_counts item) as H.
  unfold untouched in H. unfold has_code.
  now replace (code (apply_boost selection_counts item)) with (code item)
    by congruence.
Qed.

(** C4 (refuted as stated).  "A" and "B" have the same base score and
    "B" was selected once: the boost of "B" is not zero, its final score
    is not its base score, and re-ranking moves "B" in front of "A". *)
Lemma single_selection_moves_candidate :
  count_of selected_B_once (lit "B") = 1%Z
  /\ calculate_boost 1 <> 0
  /\ final_score (apply_boost selected_B_once result_B)
     <> Some (base_score result_B)
  /\ map (@code unit)
         (apply_boost_to_results [result_A; result_B] selected_B_once)
     = [Some (lit "B"); Some (lit "A")].
Proof.
  pose proof calculate_boost_one_pos as Hpos.
  assert (HB : final_score (apply_boost selected_B_once result_B)
               = Some (8 / 10 + calculate_boost 1)) by reflexivity.
  assert (HA : final_score (apply_boost selected_B_once result_A)
               = Some (8 / 10 + calculate_boost 0)) by reflexivity.
  split; [reflexivity|]. split; [lra|]. split.
  - rewrite HB. unfold base_score, result_B. cbn [score].
    intros H. inversion H as [H']. lra.
  - unfold apply_boost_to_results.
    cbn [map stable_sort fold_right insert_stable].
    assert (Hlt : Rleb (sort_key (apply_boost selected_B_once result_B))
                       (sort_key (apply_boost selected_B_once result_A))
                  = false).
    { apply Rleb_false. unfold sort_key. rewrite HA, HB.
      rewrite (calculate_boost_zero (n := 0)) by lia. lra. }
    rewrite Hlt. reflexivity.
Qed.

(** C4 (amended).  For every candidate with a code: when its selection
    count is zero (or absent, or negative) its boost is zero and its
    final score equals its base score; when its selection count is one
    its final score is the base score plus [log10(2) * 0.1], which is
    strictly more than the base score. *)
Theorem zero_or_single_selection selection_counts item (c : str) :
  code item = Some c -> c <> [] ->
  ((count_of selection_counts c <= 0)%Z ->
     final_score (apply_boost selection_counts item)
     = Some (base_score item))
  /\ (count_of selection_counts c = 1%Z ->
        final_score (apply_boost selection_counts item)
        = Some (base_score item + log10 2 * (1 / 10))
        /\ base_score item < base_score item + log10 2 * (1 / 10)).
Proof.
  intros Hc Hne.
  assert (Hcoded : has_code item = true).
  { unfold has_code. rewrite Hc. destruct c; [congruence|reflexivity]. }
  destruct (apply_boost_coded selection_counts item Hcoded) as [c' [Hc' ->]].
  assert (c' = c) by congruence. subst c'. cbn [final_score].
  split.
  - intros H0. rewrite (calculate_boost_zero H0). f_equal. lra.
  - intros H1. rewrite H1, calculate_boost_one. split; [reflexivity|].
    pose proof calculate_boost_one_pos as Hpos.
    rewrite calculate_boost_one in Hpos. lra.
Qed.
End RerankFacts.

Lemma zero_or_single_selection_witness :
  Reranking.final_score (Reranking.apply_boost never_selected result_A)
  = Some (base_score result_A).
Proof.
  refine (proj1 (@zero_or_single_selection unit never_selected result_A
                   (lit "A") eq_refl _) _).
  - discriminate.
  - cbn. lia.
Defined.

Section RerankOrder.
Import Reranking.
Local Open Scope R_scope.
Variable payload : Type.
Implicit Types (item x y : result payload) (selection_counts : counts).

Lemma apply_boost_to_results_perm (results : list (result payload))
      selection_counts :
  Permutation (apply_boost_to_results results selection_counts)
              (map (apply_boost selection_counts) results).
Proof. apply stable_sort_perm. Qed.

(** With no selection on record a candidate keeps its score as key. *)
Lemma sort_key_unselected selection_counts item :
  (forall c, (count_of selection_counts c <= 0)%Z) ->
  score item <> None ->
  (has_code item = false -> final_score item = None) ->
  sort_key (apply_boost selection_counts item) = raw_score item.
Proof.
  intros Hzero Hscore Hfresh.
  destruct (has_code item) eqn:Hcode.
  - destruct (apply_boost_coded selection_counts item Hcode) as [c [_ ->]].
    unfold sort_key, base_score, raw_score. cbn [final_score].
    rewrite (calculate_boost_zero (Hzero c)).
    destruct (score item); [lra | congruence].
  - rewrite (apply_boost_uncoded selection_counts item Hcode).
    unfold sort_key, raw_score. now rewrite (Hfresh eq_refl).
Qed.

(** C3. For every candidate list and every selection-count mapping the
    list returned by [apply_boost_to_results] is in descending order of
    the sort key, which for a candidate with a code is its final score,
    base score plus boost; candidates whose keys are equal stay in
    their incoming order; and when no code has a selection on record,
    a list of scored candidates already in descending order of score
    comes back in the same order (a candidate without a code carrying
    no earlier final score). *)
Theorem rerank_sorted_stable (results : list (result payload))
        selection_counts :
  let out := apply_boost_to_results results selection_counts in
  sorted_by descending (@sort_key payload) out
  /\ (forall x, In x out -> has_code x = true ->
        exists c, code x = Some c
          /\ final_score x
             = Some (base_score x
                     + calculate_boost (count_of selection_counts c))
          /\ sort_key x
             = base_score x + calculate_boost (count_of selection_counts c))
  /\ (forall tied : result payload -> bool,
        (forall x y, tied x = true -> tied y = true ->
                     sort_key x = sort_key y) ->
        filter tied out
        = filter tied (map (apply_boost selection_counts) results))
  /\ ((forall c, (count_of selection_counts c <= 0)%Z) ->
      (forall x, In x results ->
         score x <> None
         /\ (has_code x = false -> final_score x = None)) ->
      sorted_by descending (@raw_score payload) results ->
      out = map (apply_boost selection_counts) results
      /\ map (@untouched payload) out = map (@untouched payload) results).
Proof.
  intros out. split; [|split; [|split]].
  - apply stable_sort_sorted;
      [apply descending_total | apply descending_trans].
  - intros x Hx Hcode.
    apply (Permutation_in _ (apply_boost_to_results_perm _ _)) in Hx.
    apply in_map_iff in Hx. destruct Hx as [y [<- _]].
    rewrite apply_boost_has_code in Hcode.
    destruct (apply_boost_coded selection_counts y Hcode) as [c [Hc ->]].
    exists c. cbn [code]. split; [exact Hc|].
    unfold sort_key, base_score. cbn [final_score score].
    split; reflexivity.
  - intros tied Htied. apply stable_sort_filter.
    intros x y Hx Hy. fold descending. unfold descending.
    rewrite (Htied x y Hx Hy). apply Rleb_true, Rle_refl.
  - intros Hzero Hwf Hsorted.
    assert (Hmap : sorted_by descending (@sort_key payload)
                     (map (apply_boost selection_counts) results)).
    { apply sorted_by_map_ext with (key1 := @raw_score payload);
        [|exact Hsorted].
      intros x Hx. destruct (Hwf x Hx) as [Hs Hf].
      now apply sort_key_unselected. }
    assert (Hout : out = map (apply_boost selection_counts) results)
      by (apply stable_sort_sorted_id; exact Hmap).
    split; [exact Hout|].
    rewrite Hout, map_map. apply map_ext.
    intros x. apply apply_boost_untouched.
Qed.

Lemma StronglySorted_pair {X : Type} (R : X -> X -> Prop)
      (l1 l2 l3 : list X) (a b : X) :
  StronglySorted R (l1 ++ a :: l2 ++ b :: l3) -> R a b.
Proof.
  induction l1 as [|c l1 IH]; cbn; intros H;
    apply StronglySorted_inv in H; destruct H as [Hs Hc]; [|now apply IH].
  rewrite Forall_forall in Hc. apply Hc, in_or_app. right. now left.
Qed.

(** C10. [apply_boost_to_results] returns its input reordered: no
    candidate is added or dropped, and in every candidate the keys other
    than [final_score], [boost_applied] and [selection_count] are as
    they were.  A candidate whose code is missing or empty is returned
    as it came in, with none of the three keys added.  The returned list
    is in descending order of sort key, equal keys in incoming order, and
    the sort key of a candidate without a code is its raw score, 0 when
    the score is missing (the candidate carrying no final score of its
    own): such a candidate stands behind every candidate whose key is
    higher than its raw score and in front of every candidate whose key
    is lower. *)
Theorem rerank_frame (results : list (result payload)) selection_counts :
  let out := apply_boost_to_results results selection_counts in
  Permutation out (map (apply_boost selection_counts) results)
  /\ Permutation (map (@untouched payload) out)
                 (map (@untouched payload) results)
  /\ length out = length results
  /\ (forall item,
        untouched (apply_boost selection_counts item) = untouched item)
  /\ (forall item, has_code item = false ->
        apply_boost selection_counts item = item
        /\ (final_score item = None ->
              final_score (apply_boost selection_counts item) = None
              /\ sort_key (apply_boost selection_counts item)
                 = raw_score item))
  /\ sorted_by descending (@sort_key payload) out
  /\ (forall front x middle y back,
        out = front ++ x :: middle ++ y :: back ->
        (sort_key y <= sort_key x)%R
        /\ (has_code x = false -> final_score x = None ->
            (sort_key y <= raw_score x)%R)
        /\ (has_code y = false -> final_score y = None ->
            (raw_score y <= sort_key x)%R))
  /\ (forall tied : result payload -> bool,
        (forall x y, tied x = true -> tied y = true ->
                     sort_key x = sort_key y) ->
        filter tied out
        = filter tied (map (apply_boost selection_counts) results)).
Proof.
  intros out.
  pose proof (apply_boost_to_results_perm results selection_counts) as Hp.
  fold out in Hp.
  assert (Hsorted : sorted_by descending (@sort_key payload) out)
    by (apply stable_sort_sorted;
        [apply descending_total | apply descending_trans]).
  split; [exact Hp|].
  split; [|split; [|split; [|split; [|split; [exact Hsorted|split]]]]].
  - eapply Permutation_trans; [apply Permutation_map, Hp|].
    rewrite map_map.
    erewrite map_ext; [apply Permutation_refl|].
    intros x. apply apply_boost_untouched.
  - rewrite (Permutation_length Hp). apply length_map.
  - intros item. apply apply_boost_untouched.
  - intros item Hcode.
    rewrite (apply_boost_uncoded selection_counts item Hcode).
    split; [reflexivity|]. intros Hf. split; [exact Hf|].
    unfold sort_key, raw_score. now rewrite Hf.
  - intros front x middle y back Hout.
    unfold sorted_by in Hsorted. rewrite Hout in Hsorted.
    apply StronglySorted_pair in Hsorted. cbv beta in Hsorted.
    unfold descending in Hsorted. apply Rleb_true in Hsorted.
    split; [exact Hsorted|]. split; intros _ Hf.
    + replace (raw_score x) with (sort_key x); [exact Hsorted|].
      unfold sort_key, raw_score. now rewrite Hf.
    + replace (raw_score y) with (sort_key y); [exact Hsorted|].
      unfold sort_key, raw_score. now rewrite Hf.
  - intros tied Htied. apply stable_sort_filter.
    intros x y Hx Hy. rewrite (Htied x y Hx Hy).
    apply Rleb_true, Rle_refl.
Qed.
End RerankOrder.

Lemma rerank_sorted_stable_witness :
  Reranking.apply_boost_to_results [result_C; result_A] never_selected
  = map (Reranking.apply_boost never_selected) [result_C; result_A].
Proof.
  refine (proj1 (proj2 (proj2 (proj2
            (@rerank_sorted_stable unit [result_C; result_A] never_selected)))
            _ _ _)).
  - intros c. cbn. lia.
  - intros x [<-|[<-|[]]]; split; (discriminate || reflexivity).
  - unfold sorted_by.
    repeat first [apply SSorted_cons | apply SSorted_nil
                 | apply Forall_cons | apply Forall_nil].
    unfold descending. apply Rleb_true. cbn. lra.
Defined.

Lemma rerank_frame_witness :
  has_code result_without_code = false
  /\ Reranking.apply_boost selected_B_once result_without_code
     = result_without_code.
Proof.
  split; [reflexivity|].
  exact (proj1 (proj1 (proj2 (proj2 (proj2 (proj2
           (@rerank_frame unit [result_without_code] selected_B_once)))))
           result_without_code eq_refl)).
Defined.

(* ================================================================== *)
(** * More on the normalizer and the edit distance *)
(* ================================================================== *)

Section NormalizerFacts.
Import Autocomplete.

Lemma lower_allowed_normal (c : ascii) :
  allowed (lower c) = true -> normal_char (lower c) = true.
Proof.
  destruct c as [[] [] [] [] [] [] [] []]; vm_compute;
    intros H; try reflexivity; discriminate H.
Qed.

Lemma normalize_app (a b : str) :
  normalize (a ++ b) = normalize a ++ normalize b.
Proof. unfold normalize. now rewrite map_app, filter_app. Qed.

Lemma normalize_chars (text : str) :
  Forall (fun c => normal_char c = true) (normalize text).
Proof.
  unfold normalize. induction text as [|c t IH]; cbn [map filter].
  - constructor.
  - destruct (allowed (lower c)) eqn:Hc; [|exact IH].
    constructor; [now apply lower_allowed_normal | exact IH].
Qed.

Lemma normalize_length (text : str) :
  length (normalize text) <= length text.
Proof.
  unfold normalize.
  pose proof (filter_length_le allowed (map lower text)) as H.
  now rewrite length_map in H.
Qed.

(** X1. [normalize] returns only lower-case letters, digits and spaces,
    never lengthens its input, changes nothing when applied a second
    time, and works piece by piece on a concatenation. *)
Theorem normalize_spec :
  (forall text, Forall (fun c => normal_char c = true) (normalize text))
  /\ (forall text, length (normalize text) <= length text)
  /\ (forall text, normalize (normalize text) = normalize text)
  /\ (forall a b, normalize (a ++ b) = normalize a ++ normalize b).
Proof.
  split; [exact normalize_chars|].
  split; [exact normalize_length|].
  split; [exact normalize_idempotent | exact normalize_app].
Qed.
End NormalizerFacts.

Section LevenshteinMetric.
Import Autocomplete.

Lemma cell_cost_le_1 (x y : option ascii) : cell_cost x y <= 1.
Proof.
  destruct x, y; cbn; try lia. unfold neq_cost. destruct (Ascii.eqb _ _); lia.
Qed.

Lemma lev_table_upper (a b : str) (i j : nat) :
  lev_table a b i j <= Nat.max i j.
Proof.
  revert j. induction i as [|i IHi]; intros j; [cbn; lia|].
  destruct j as [|j]; [rewrite lev_table_0_r; lia|].
  rewrite lev_table_S. unfold min3.
  pose proof (IHi j). pose proof (cell_cost_le_1 (nth_error a i) (nth_error b j)).
  lia.
Qed.

Lemma lev_table_lower (a b : str) (i j : nat) :
  i <= j + lev_table a b i j /\ j <= i + lev_table a b i j.
Proof.
  revert j. induction i as [|i IHi]; intros j; [cbn; lia|].
  induction j as [|j IHj]; [rewrite lev_table_0_r; lia|].
  rewrite lev_table_S. unfold min3.
  pose proof (IHi j). pose proof (IHi (S j)). lia.
Qed.

(** The table looks at the first [i] and [j] characters only. *)
Lemma lev_table_prefix (a a' b b' : str) (i j : nat) :
  i <= length a -> j <= length b ->
  lev_table (a ++ a') (b ++ b') i j = lev_table a b i j.
Proof.
  revert j. induction i as [|i IHi]; intros j Hi Hj; [reflexivity|].
  induction j as [|j IHj]; [now rewrite !lev_table_0_r|].
  rewrite !lev_table_S, IHj, !IHi by lia.
  now rewrite !nth_error_app1 by lia.
Qed.

Lemma lev_table_zero (a b : str) (i : nat) :
  i <= length a -> i <= length b ->
  lev_table a b i i = 0 ->
  forall k, k < i -> nth_error a k = nth_error b k.
Proof.
  induction i as [|i IH]; intros Ha Hb H0 k Hk; [lia|].
  rewrite lev_table_S in H0. unfold min3 in H0.
  assert (Hd : lev_table a b i i = 0
               /\ cell_cost (nth_error a i) (nth_error b i) = 0) by lia.
  destruct Hd as [Hd Hc].
  destruct (Nat.eq_dec k i) as [->|Hne]; [|apply IH; lia].
  destruct (nth_error a i) as [x|] eqn:Hx;
    [|apply nth_error_None in Hx; lia].
  destruct (nth_error b i) as [y|] eqn:Hy;
    [|apply nth_error_None in Hy; lia].
  cbn in Hc. unfold neq_cost in Hc.
  destruct (Ascii.eqb_spec x y); [congruence|discriminate].
Qed.

Lemma lev_nil_l (b : str) : levenshtein_distance [] b = length b.
Proof. now rewrite levenshtein_distance_table. Qed.

Lemma lev_nil_r (a : str) : levenshtein_distance a [] = length a.
Proof. rewrite levenshtein_distance_table. apply lev_table_0_r. Qed.

Lemma lev_snoc (a b : str) (x y : ascii) :
  levenshtein_distance (a ++ [x]) (b ++ [y])
  = min3 (levenshtein_distance a (b ++ [y]) + 1)
         (levenshtein_distance (a ++ [x]) b + 1)
         (levenshtein_distance a b + neq_cost x y).
Proof.
  rewrite !levenshtein_distance_table, !last_length, lev_table_S.
  pose proof (@lev_table_prefix a [x] (b ++ [y]) [] (length a) (S (length b)))
    as E1.
  pose proof (@lev_table_prefix (a ++ [x]) [] b [y] (S (length a)) (length b))
    as E2.
  pose proof (@lev_table_prefix a [x] b [y] (length a) (length b)) as E3.
  rewrite app_nil_r, last_length in E1, E2.
  rewrite E1, E2, E3 by lia.
  rewrite !nth_error_app2 by lia. rewrite !Nat.sub_diag. reflexivity.
Qed.

Lemma lev_bounds (a b : str) :
  length a - length b <= levenshtein_distance a b
  /\ length b - length a <= levenshtein_distance a b
  /\ levenshtein_distance a b <= Nat.max (length a) (length b).
Proof.
  rewrite levenshtein_distance_table.
  pose proof (lev_table_lower a b (length a) (length b)).
  pose proof (lev_table_upper a b (length a) (length b)). lia.
Qed.

(** X2. The edit distance lies between the difference and the larger of
    the two lengths. *)
Theorem levenshtein_distance_bounds (a b : str) :
  length a - length b <= levenshtein_distance a b
  /\ length b - length a <= levenshtein_distance a b
  /\ levenshtein_distance a b <= Nat.max (length a) (length b).
Proof. apply lev_bounds. Qed.

(** X3. The edit distance of two strings is 0 exactly when they are the
    same string. *)
Theorem levenshtein_distance_zero_iff (a b : str) :
  levenshtein_distance a b = 0 <-> a = b.
Proof.
  split.
  - intros H0. rewrite levenshtein_distance_table in H0.
    pose proof (lev_table_lower a b (length a) (length b)) as Hl.
    assert (Hlen : length a = length b) by lia.
    rewrite <- Hlen in H0.
    apply nth_error_ext. intros k.
    destruct (Nat.lt_ge_cases k (length a)) as [Hk|Hk].
    + apply (@lev_table_zero a b (length a)); auto. lia.
    + transitivity (@None ascii); [|symmetry];
        apply nth_error_None; lia.
  - intros ->. rewrite levenshtein_distance_table. apply lev_table_diag.
Qed.

(** X4. [levenshtein_distance] obeys the defining equations of the edit
    distance: against the empty string it is the length of the other
    string, and for two strings ending in [x] and [y] it is the least of
    dropping [x], dropping [y], and matching [x] with [y] at cost 0 when
    they are equal and 1 otherwise. *)
Theorem levenshtein_distance_equations :
  (forall b, levenshtein_distance [] b = length b)
  /\ (forall a, levenshtein_distance a [] = length a)
  /\ (forall a b x y,
        levenshtein_distance (a ++ [x]) (b ++ [y])
        = Nat.min (levenshtein_distance a (b ++ [y]) + 1)
            (Nat.min (levenshtein_distance (a ++ [x]) b + 1)
                     (levenshtein_distance a b + (if Ascii.eqb x y then 0 else 1)))).
Proof.
  split; [exact lev_nil_l|]. split; [exact lev_nil_r|].
  intros a b x y. apply lev_snoc.
Qed.
End LevenshteinMetric.

Section LevenshteinTriangle.
Import Autocomplete.

Lemma snoc_case {X : Type} (l : list X) :
  l = [] \/ exists l' x, l = l' ++ [x].
Proof.
  destruct l as [|y l]; [now left|]. right.
  destruct (@exists_last X (y :: l)) as [l' [x H]]; [discriminate|].
  now exists l', x.
Qed.

Lemma lev_drop_l (a c : str) (x : ascii) :
  levenshtein_distance (a ++ [x]) c <= levenshtein_distance a c + 1.
Proof.
  destruct (snoc_case c) as [->|[c' [z ->]]].
  - rewrite !lev_nil_r, last_length. lia.
  - rewrite lev_snoc. unfold min3. lia.
Qed.

Lemma lev_drop_r (a c : str) (z : ascii) :
  levenshtein_distance a (c ++ [z]) <= levenshtein_distance a c + 1.
Proof.
  destruct (snoc_case a) as [->|[a' [x ->]]].
  - rewrite !lev_nil_l, last_length. lia.
  - rewrite lev_snoc. unfold min3. lia.
Qed.

Lemma lev_match (a c : str) (x z : ascii) :
  levenshtein_distance (a ++ [x]) (c ++ [z])
  <= levenshtein_distance a c + neq_cost x z.
Proof. rewrite lev_snoc. unfold min3. lia. Qed.

Lemma neq_cost_triangle (x y z : ascii) :
  neq_cost x z <= neq_cost x y + neq_cost y z.
Proof.
  unfold neq_cost.
  destruct (Ascii.eqb_spec x z), (Ascii.eqb_spec x y), (Ascii.eqb_spec y z);
    try lia; congruence.
Qed.

Lemma lev_triangle_bounded (n : nat) :
  forall a b c : str,
    length a + length b + length c <= n ->
    levenshtein_distance a c
    <= levenshtein_distance a b + levenshtein_distance b c.
Proof.
  induction n as [|n IH]; intros a b c Hn.
  - destruct a, b, c; cbn in Hn; lia.
  - destruct (snoc_case b) as [->|[b' [y ->]]].
    { rewrite lev_nil_r, lev_nil_l.
      pose proof (lev_bounds a c). lia. }
    destruct (snoc_case a) as [->|[a' [x ->]]].
    { rewrite !lev_nil_l.
      pose proof (lev_bounds (b' ++ [y]) c). lia. }
    destruct (snoc_case c) as [->|[c' [z ->]]].
    { rewrite !lev_nil_r.
      pose proof (lev_bounds (a' ++ [x]) (b' ++ [y])). lia. }
    rewrite !length_app in Hn. cbn [length] in Hn.
    pose proof (IH a' (b' ++ [y]) (c' ++ [z])) as IH1.
    pose proof (IH (a' ++ [x]) b' (c' ++ [z])) as IH2.
    pose proof (IH (a' ++ [x]) (b' ++ [y]) c') as IH3.
    pose proof (IH (a' ++ [x]) b' c') as IH4.
    pose proof (IH a' b' (c' ++ [z])) as IH5.
    pose proof (IH a' b' c') as IH6.
    pose proof (last_length a' x) as La.
    pose proof (last_length b' y) as Lb.
    pose proof (last_length c' z) as Lc.
    specialize (IH1 ltac:(lia)). specialize (IH2 ltac:(lia)).
    specialize (IH3 ltac:(lia)). specialize (IH4 ltac:(lia)).
    specialize (IH5 ltac:(lia)). specialize (IH6 ltac:(lia)).
    pose proof (lev_drop_l a' (c' ++ [z]) x) as D1.
    pose proof (lev_drop_r (a' ++ [x]) c' z) as D2.
    pose proof (lev_match a' c' x z) as D3.
    pose proof (neq_cost_triangle x y z) as Hc.
    pose proof (lev_snoc a' b' x y) as Eab.
    pose proof (lev_snoc b' c' y z) as Ebc.
    unfold min3 in Eab, Ebc. lia.
Qed.

(** X5. The edit distance satisfies the triangle inequality: going from
    [a] to [c] never costs more than going from [a] to [b] and then from
    [b] to [c]. *)
Theorem levenshtein_distance_triangle (a b c : str) :
  levenshtein_distance a c
  <= levenshtein_distance a b + levenshtein_distance b c.
Proof.
  apply (lev_triangle_bounded (n := length a + length b + length c)). lia.
Qed.
End LevenshteinTriangle.

(* ================================================================== *)
(** * More on autocomplete *)
(* ================================================================== *)

Section ListPrefixes.
Variable X : Type.

Lemma firstn_In (n : nat) (l : list X) (x : X) :
  In x (firstn n l) -> In x l.
Proof.
  intros H. rewrite <- (firstn_skipn n l). apply in_or_app. now left.
Qed.

Lemma firstn_min_length (n : nat) (l : list X) :
  firstn (Nat.min n (length l)) l = firstn n l.
Proof.
  destruct (Nat.le_ge_cases n (length l)) as [H|H].
  - now rewrite Nat.min_l.
  - rewrite Nat.min_r by exact H.
    now rewrite firstn_all, firstn_all2.
Qed.

Lemma firstn_NoDup (n : nat) (l : list X) : NoDup l -> NoDup (firstn n l).
Proof.
  intros H. rewrite <- (firstn_skipn n l) in H.
  exact (NoDup_app_remove_r _ _ H).
Qed.
End ListPrefixes.

Section StagedMatches.
Import Autocomplete.

Lemma str_eqb_eq (a b : str) : str_eqb a b = true <-> a = b.
Proof.
  unfold str_eqb. destruct (list_eq_dec ascii_dec a b); split;
    intros; congruence.
Qed.

Lemma item_eqb_eq (a b : item) : item_eqb a b = true <-> a = b.
Proof.
  unfold item_eqb. rewrite !andb_true_iff, !str_eqb_eq.
  destruct a, b; cbn. split; [intros [[-> ->] ->]; reflexivity|].
  intros H; inversion H; auto.
Qed.

Lemma existsb_item_In (it : item) (l : list item) :
  existsb (item_eqb it) l = true <-> In it l.
Proof.
  rewrite existsb_exists. split.
  - intros [x [Hx He]]. apply item_eqb_eq in He. now subst.
  - intros H. exists it. split; [exact H | now apply item_eqb_eq].
Qed.

Lemma startswith_app (s t p : str) :
  startswith s p = true -> startswith (s ++ t) p = true.
Proof.
  revert s. induction p as [|b p IH]; intros s H.
  - destruct s, t; reflexivity.
  - destruct s as [|a s]; [discriminate|]. cbn in *.
    apply andb_true_iff in H. destruct H as [-> H]. now apply IH.
Qed.

Lemma startswith_contains (s p : str) :
  startswith s p = true -> contains p s = true.
Proof. intros H. destruct s; cbn [contains]; rewrite H; reflexivity. Qed.

Lemma contains_app_l (p s t : str) :
  contains p s = true -> contains p (s ++ t) = true.
Proof.
  induction s as [|a s IH]; intros H.
  - cbn in H. rewrite orb_false_r in H.
    destruct p; [|discriminate]. destruct t; reflexivity.
  - cbn [contains] in H. apply orb_true_iff in H.
    change ((a :: s) ++ t) with (a :: (s ++ t)). cbn [contains].
    apply orb_true_iff. destruct H as [H|H].
    + left. exact (startswith_app (a :: s) t p H).
    + right. now apply IH.
Qed.

Lemma contains_app_r (p s t : str) :
  contains p t = true -> contains p (s ++ t) = true.
Proof.
  induction s as [|a s IH]; intros H; [exact H|].
  change ((a :: s) ++ t) with (a :: (s ++ t)). cbn [contains].
  apply orb_true_iff. right. now apply IH.
Qed.

Lemma blob_parts (it : item) :
  blob it = normalize (term it) ++ normalize (lit " ")
            ++ normalize (code it) ++ normalize (lit " ")
            ++ normalize (definition it).
Proof. unfold blob. now rewrite !normalize_app. Qed.

(** A prefix hit on the term, the code or the definition is a substring
    hit on the blob. *)
Lemma prefix_hit_in_blob (q : str) (it : item) :
  startswith (normalize (term it)) q
  || startswith (normalize (code it)) q
  || startswith (normalize (definition it)) q = true ->
  contains q (blob it) = true.
Proof.
  rewrite blob_parts, !orb_true_iff. intros [[H|H]|H].
  - apply contains_app_l, startswith_contains, H.
  - apply contains_app_r, contains_app_r, contains_app_l,
      startswith_contains, H.
  - do 4 apply contains_app_r. apply startswith_contains, H.
Qed.

Lemma prefix_matches_In (q : str) (dataset : list item) (it : item) :
  In it (prefix_matches q dataset) ->
  In it dataset /\ contains q (blob it) = true.
Proof.
  unfold prefix_matches. rewrite filter_In. intros [Hin H].
  split; [exact Hin | now apply prefix_hit_in_blob].
Qed.

Lemma substring_matches_In (q : str) (dataset results : list item) (it : item) :
  In it (substring_matches q dataset results) <->
  In it results \/ (In it dataset /\ contains q (blob it) = true).
Proof.
  revert results. induction dataset as [|d ds IH]; intros results.
  - cbn. tauto.
  - cbn [substring_matches]. fold (blob d).
    destruct (contains q (blob d)) eqn:Hc;
      destruct (existsb (item_eqb d) results) eqn:He; cbn [andb negb];
        rewrite IH; cbn [In].
    + apply existsb_item_In in He. split; [tauto|].
      intros [H|[[<-|H] Hq]]; auto.
    + rewrite in_app_iff. cbn [In]. split.
      * intros [[H|[<-|[]]]|[H Hq]]; auto.
      * intros [H|[[<-|H] Hq]]; auto.
    + split; [tauto|]. intros [H|[[<-|H] Hq]]; auto. congruence.
    + split; [tauto|]. intros [H|[[<-|H] Hq]]; auto. congruence.
Qed.

Lemma substring_matches_extends (q : str) (dataset results : list item) :
  exists more, substring_matches q dataset results = results ++ more.
Proof.
  revert results. induction dataset as [|d ds IH]; intros results.
  - exists []. now rewrite app_nil_r.
  - cbn [substring_matches].
    destruct (contains q _ && negb (existsb (item_eqb d) results)).
    + destruct (IH (results ++ [d])) as [more ->].
      exists (d :: more). now rewrite <- app_assoc.
    + apply IH.
Qed.

Lemma substring_matches_NoDup (q : str) (dataset results : list item) :
  NoDup results -> NoDup (substring_matches q dataset results).
Proof.
  revert results. induction dataset as [|d ds IH]; intros results H;
    [exact H|].
  cbn [substring_matches].
  destruct (contains q _); cbn [andb]; [|now apply IH].
  destruct (existsb (item_eqb d) results) eqn:He; cbn [negb]; [now apply IH|].
  apply IH. apply NoDup_app; [exact H | repeat constructor; intros [] |].
  intros x Hx [<-|[]].
  apply existsb_item_In in Hx. congruence.
Qed.

Lemma staged_matches_In (q : str) (dataset : list item) (it : item) :
  In it (staged_matches q dataset) ->
  In it dataset /\ contains q (blob it) = true.
Proof.
  unfold staged_matches.
  destruct (length (prefix_matches q dataset) <? 20).
  - rewrite substring_matches_In. intros [H|H]; [|exact H].
    now apply prefix_matches_In.
  - apply prefix_matches_In.
Qed.

Lemma staged_matches_complete (q : str) (dataset : list item) (it : item) :
  In it dataset -> contains q (blob it) = true ->
  staged_matches q dataset <> [].
Proof.
  intros Hin Hq. unfold staged_matches.
  destruct (Nat.ltb_spec (length (prefix_matches q dataset)) 20) as [H|H].
  - intros He.
    assert (Hit : In it (substring_matches q dataset (prefix_matches q dataset)))
      by (apply substring_matches_In; auto).
    rewrite He in Hit. destruct Hit.
  - intros He. rewrite He in H. cbn in H. lia.
Qed.

Lemma staged_matches_NoDup (q : str) (dataset : list item) :
  NoDup dataset -> NoDup (staged_matches q dataset).
Proof.
  intros H. unfold staged_matches.
  assert (Hp : NoDup (prefix_matches q dataset))
    by now apply NoDup_filter.
  destruct (_ <? 20); [now apply substring_matches_NoDup | exact Hp].
Qed.

(** X6. The stages before the fuzzy one: every document they return is
    in the catalog and contains the normalized query in its blob; the
    prefix hits come first, in catalog order; with fewer than 20 prefix
    hits the stages return exactly the documents of the catalog whose blob
    contains the query, and with 20 or more they return the prefix hits
    alone. *)
Theorem staged_matches_spec (query_norm : str) (dataset : list item) :
  let staged := staged_matches query_norm dataset in
  let prefix := prefix_matches query_norm dataset in
  (forall it, In it staged ->
     In it dataset /\ contains query_norm (blob it) = true)
  /\ (exists more, staged = prefix ++ more)
  /\ (length prefix < 20 ->
      forall it, In it staged <->
                 In it dataset /\ contains query_norm (blob it) = true)
  /\ (20 <= length prefix -> staged = prefix).
Proof.
  intros staged prefix. split; [|split; [|split]].
  - intros it. apply staged_matches_In.
  - subst staged prefix. unfold staged_matches.
    destruct (_ <? 20); [apply substring_matches_extends|].
    exists []. now rewrite app_nil_r.
  - intros Hlt it. split; [apply staged_matches_In|].
    intros [Hin Hq]. subst staged. unfold staged_matches.
    fold prefix. destruct (Nat.ltb_spec (length prefix) 20); [|lia].
    apply substring_matches_In. auto.
  - intros Hge. subst staged. unfold staged_matches. fold prefix.
    destruct (Nat.ltb_spec (length prefix) 20); [lia|reflexivity].
Qed.

Lemma staged_matches_spec_witness :
  length (prefix_matches (lit "pain") sample_data) < 20
  /\ (In (Item (lit "SP45") (lit "Back pain") (lit "Pain in the back region"))
         (staged_matches (lit "pain") sample_data)).
Proof.
  assert (H : length (prefix_matches (lit "pain") sample_data) < 20)
    by (vm_compute; lia).
  split; [exact H|].
  apply (proj1 (proj2 (proj2 (staged_matches_spec (lit "pain") sample_data)))
           H).
  split; [vm_compute; tauto | vm_compute; reflexivity].
Defined.
End StagedMatches.

Section AutocompleteCases.
Import Autocomplete.

(** The three ways [autocomplete_search] returns. *)
Lemma autocomplete_search_cases (query : str) (dataset : list item) :
  let query_norm := normalize query in
  let staged := staged_matches query_norm dataset in
  let fuzzy_matches := fuzzy_match_terms query_norm dataset 2 in
  let r := autocomplete_search query dataset in
  (length query_norm < 2
   /\ r = {| results := []; fuzzy_suggestions := []; has_fuzzy := None |})
  \/ (2 <= length query_norm
      /\ (staged <> [] \/ length query_norm < 3)
      /\ r = {| results := firstn 20 staged;
                fuzzy_suggestions := [];
                has_fuzzy := Some false |})
  \/ (3 <= length query_norm
      /\ staged = []
      /\ r = {| results := map fst (firstn 10 fuzzy_matches);
                fuzzy_suggestions :=
                  map make_suggestion (firstn 5 fuzzy_matches);
                has_fuzzy :=
                  Some (match fuzzy_matches with [] => false | _ => true end)
             |}).
Proof.
  intros query_norm staged fuzzy_matches r. subst r.
  unfold autocomplete_search. fold query_norm. fold staged.
  fold fuzzy_matches.
  destruct (Nat.ltb_spec (length query_norm) 2) as [H2|H2]; [now left|].
  right.
  destruct (Nat.leb_spec 3 (length query_norm)) as [H3|H3].
  - destruct staged as [|it st] eqn:Hst.
    + right. split; [exact H3|]. split; [reflexivity|].
      cbn [length Nat.eqb andb].
      destruct fuzzy_matches as [|m fm]; [reflexivity|].
      cbv beta iota zeta.
      assert (E : firstn 20 (map fst (firstn 10 (m :: fm)))
                  = map fst (firstn 10 (m :: fm))).
      { apply firstn_all2. rewrite length_map.
        pose proof (firstn_le_length 10 (m :: fm)). lia. }
      rewrite E. change (firstn 5 (m :: fm)) with (m :: firstn 4 fm).
      reflexivity.
    + left. split; [exact H2|]. split; [left; discriminate|].
      reflexivity.
  - left. split; [exact H2|]. split; [right; exact H3|].
    rewrite andb_false_r. reflexivity.
Qed.

Lemma make_suggestion_item (l : list (item * nat)) :
  map sug_item (map make_suggestion l) = map fst l.
Proof. rewrite map_map. apply map_ext. reflexivity. Qed.

(** X7. Whatever [autocomplete_search] returns comes from the catalog:
    every result and every suggested item is a document of the dataset.
    A suggestion carries a distance of at most 2 and the message
    "Did you mean '<term>'?", there are at most 5 suggestions, and the
    suggested items are the first results, in the same order. *)
Theorem autocomplete_search_from_catalog (query : str) (dataset : list item) :
  let r := autocomplete_search query dataset in
  (forall it, In it (results r) -> In it dataset)
  /\ (forall s, In s (fuzzy_suggestions r) ->
        In (sug_item s) dataset
        /\ distance s <= 2
        /\ suggestion_text s
           = lit "Did you mean '" ++ term (sug_item s) ++ lit "'?")
  /\ length (fuzzy_suggestions r) <= 5
  /\ map sug_item (fuzzy_suggestions r)
     = firstn (length (fuzzy_suggestions r)) (results r).
Proof.
  intros r.
  pose proof (@fuzzy_match_terms_spec (normalize query) dataset 2
                (normalize_idempotent query)) as [_ [Hall _]].
  rewrite Forall_forall in Hall.
  destruct (autocomplete_search_cases query dataset)
    as [[_ Hr]|[[_ [_ Hr]]|[_ [_ Hr]]]]; fold r in Hr; rewrite Hr;
    cbn [results fuzzy_suggestions].
  - split; [intros ? []|]. split; [intros ? []|].
    split; [cbn; lia | reflexivity].
  - split; [|split; [intros ? []|split; [cbn; lia | reflexivity]]].
    intros it Hit. apply firstn_In in Hit.
    now apply staged_matches_In in Hit.
  - set (fm := fuzzy_match_terms (normalize query) dataset 2) in *.
    split; [|split; [|split]].
    + intros it Hit. apply in_map_iff in Hit.
      destruct Hit as [m [<- Hm]]. apply firstn_In in Hm.
      apply (Hall m Hm).
    + intros s Hs. apply in_map_iff in Hs.
      destruct Hs as [m [<- Hm]]. apply firstn_In in Hm.
      destruct (Hall m Hm) as [_ [Hle Hin]].
      cbn [make_suggestion sug_item distance suggestion_text]. auto.
    + rewrite length_map. apply firstn_le_length.
    + rewrite make_suggestion_item, !length_map, <- !firstn_map.
      rewrite firstn_firstn, length_firstn.
      replace (Nat.min (Nat.min 5 (length fm)) 10)
        with (Nat.min 5 (length (map fst fm)))
        by (rewrite length_map; lia).
      symmetry. apply firstn_min_length.
Qed.

Lemma suggestions_imply_no_hit (query : str) (dataset : list item) :
  fuzzy_suggestions (autocomplete_search query dataset) <> [] ->
  forall it, In it dataset -> contains (normalize query) (blob it) = false.
Proof.
  intros Hs it Hin.
  destruct (autocomplete_search_cases query dataset)
    as [[_ Hr]|[[_ [_ Hr]]|[_ [Hst _]]]];
    try (rewrite Hr in Hs; cbn in Hs; congruence).
  destruct (contains (normalize query) (blob it)) eqn:Hq; [|reflexivity].
  exfalso. exact (staged_matches_complete _ _ _ Hin Hq Hst).
Qed.

(** X8. When a document of the catalog contains the normalized query (of
    at least 2 characters) in its blob, the answer is local: there is at
    least one result, every result contains the query, there is no fuzzy
    suggestion and [has_fuzzy] is false.  Conversely a fuzzy suggestion is
    made only when no document contains the query. *)
Theorem autocomplete_search_local_first (query : str) (dataset : list item) :
  let query_norm := normalize query in
  let r := autocomplete_search query dataset in
  (2 <= length query_norm ->
   (exists it, In it dataset /\ contains query_norm (blob it) = true) ->
   results r <> []
   /\ (forall it, In it (results r) -> contains query_norm (blob it) = true)
   /\ fuzzy_suggestions r = []
   /\ has_fuzzy r = Some false)
  /\ (fuzzy_suggestions r <> [] ->
      forall it, In it dataset -> contains query_norm (blob it) = false).
Proof.
  intros query_norm r. subst query_norm. split.
  - intros H2 [it [Hin Hq]].
    pose proof (staged_matches_complete _ _ _ Hin Hq) as Hne.
    destruct (autocomplete_search_cases query dataset)
      as [[Hlt _]|[[_ [_ Hr]]|[_ [Hst _]]]];
      [lia| |contradiction].
    fold r in Hr. rewrite Hr. cbn [results fuzzy_suggestions has_fuzzy].
    split; [|split; [|split]]; try reflexivity.
    + destruct (staged_matches (normalize query) dataset);
        [congruence|discriminate].
    + intros x Hx. apply firstn_In in Hx.
      now apply staged_matches_In in Hx.
  - apply suggestions_imply_no_hit.
Qed.

Lemma autocomplete_search_local_first_witness :
  results (autocomplete_search (lit "Fe") sample_data) <> []
  /\ has_fuzzy (autocomplete_search (lit "Fe") sample_data) = Some false.
Proof.
  assert (H2 : 2 <= length (normalize (lit "Fe"))) by (vm_compute; lia).
  assert (Hex : exists it, In it sample_data
                  /\ contains (normalize (lit "Fe")) (blob it) = true).
  { exists (Item (lit "SP42") (lit "Fever disorder")
                 (lit "High body temperature")).
    split; [vm_compute; tauto | vm_compute; reflexivity]. }
  destruct (proj1 (autocomplete_search_local_first (lit "Fe") sample_data)
              H2 Hex) as [Hne [_ [_ Hf]]].
  split; [exact Hne | exact Hf].
Defined.

(** X9. A catalog without repeated documents gives results without
    repeated documents, whichever stage produced them. *)
Theorem autocomplete_search_NoDup (query : str) (dataset : list item) :
  NoDup dataset -> NoDup (results (autocomplete_search query dataset)).
Proof.
  intros Hnd.
  destruct (autocomplete_search_cases query dataset)
    as [[_ Hr]|[[_ [_ Hr]]|[_ [_ Hr]]]]; rewrite Hr; cbn [results].
  - constructor.
  - apply firstn_NoDup. now apply staged_matches_NoDup.
  - rewrite <- firstn_map. apply firstn_NoDup.
    pose proof (@fuzzy_match_terms_spec (normalize query) dataset 2
                  (normalize_idempotent query)) as [Hperm _].
    apply (Permutation_NoDup (Permutation_sym Hperm)).
    now apply NoDup_filter.
Qed.

Lemma autocomplete_search_NoDup_witness :
  NoDup (results (autocomplete_search (lit "pain") sample_data)).
Proof.
  apply autocomplete_search_NoDup.
  unfold sample_data.
  repeat (constructor;
          [cbn [In]; intros H;
           repeat (destruct H as [H|H]; [discriminate H|]); exact H|]).
  constructor.
Defined.

(** X10. The earlier [autocomplete_search] of the web microservice and
    the one with the fuzzy stage agree wherever the fuzzy stage adds
    nothing: when the newer one makes no suggestion its results are the
    list the earlier one returns, and whenever the earlier one returns a
    non-empty list the newer one returns that list and makes no
    suggestion.  The earlier one returns at most 20 documents. *)
Theorem web_autocomplete_agrees (query : str) (dataset : list item) :
  let w := WebAutocomplete.autocomplete_search query dataset in
  let r := autocomplete_search query dataset in
  (fuzzy_suggestions r = [] -> results r = w)
  /\ (w <> [] -> results r = w /\ fuzzy_suggestions r = [])
  /\ length w <= 20.
Proof.
  intros w r.
  assert (Hw : w = if length (normalize query) <? 2 then []
                   else firstn 20 (staged_matches (normalize query) dataset))
    by reflexivity.
  destruct (autocomplete_search_cases query dataset)
    as [[Hlt Hr]|[[H2 [_ Hr]]|[H3 [Hst Hr]]]]; fold r in Hr; rewrite Hr;
    cbn [results fuzzy_suggestions].
  - destruct (Nat.ltb_spec (length (normalize query)) 2); [|lia].
    rewrite Hw. cbn. repeat split; auto; try lia.
  - destruct (Nat.ltb_spec (length (normalize query)) 2); [lia|].
    rewrite Hw. repeat split; auto. apply firstn_le_length.
  - destruct (Nat.ltb_spec (length (normalize query)) 2); [lia|].
    rewrite Hst in Hw. cbn in Hw. rewrite Hw.
    split; [|split; [congruence | cbn; lia]].
    intros Hs.
    destruct (fuzzy_match_terms (normalize query) dataset 2);
      [reflexivity | discriminate].
Qed.

Lemma web_autocomplete_agrees_witness :
  results (autocomplete_search (lit "pain") sample_data)
  = WebAutocomplete.autocomplete_search (lit "pain") sample_data.
Proof.
  apply (proj1 (web_autocomplete_agrees (lit "pain") sample_data)).
  vm_compute. reflexivity.
Defined.
End AutocompleteCases.

Section RouteFacts.
Import Autocomplete AutocompleteRoutes.
Variable web : Type.
Variable google_search_fallback : str -> str -> list web.

(** X11. The autocomplete routes.  A query whose normalized form has
    fewer than 2 characters makes the handler fail: it reads the key
    [has_fuzzy], which the search did not set.  Any other query is
    answered: with source "fuzzy_match" only when there are suggestions
    (and then no document contains the query), with the web fallback only
    when there is no local result and the fallback returned something, and
    otherwise with the local results; the fallback is the only source of
    documents that are not in the catalog. *)
Theorem autocomplete_route_spec (system : str) (dataset : list item)
        (q : str) :
  let r := autocomplete_search q dataset in
  let out := autocomplete_route google_search_fallback system dataset q in
  (length (normalize q) < 2 -> out = None)
  /\ (2 <= length (normalize q) ->
      match out with
      | None => False
      | Some (FuzzyMatch q' res suggestions _) =>
          q' = q /\ res = results r /\ suggestions = fuzzy_suggestions r
          /\ suggestions <> []
          /\ (forall it, In it dataset ->
                contains (normalize q) (blob it) = false)
      | Some (GoogleFallback q' found _) =>
          q' = q /\ results r = []
          /\ found = google_search_fallback q system /\ found <> []
      | Some (Local q' res) =>
          q' = q /\ res = results r
          /\ fuzzy_suggestions r = []
          /\ (res = [] -> google_search_fallback q system = [])
      end).
Proof.
  intros r out. subst out. unfold autocomplete_route. fold r.
  destruct (autocomplete_search_cases q dataset)
    as [[Hlt Hr]|[[H2 [_ Hr]]|[H3 [Hst Hr]]]]; fold r in Hr.
  - rewrite Hr. cbn [has_fuzzy]. split; [reflexivity | lia].
  - rewrite Hr. cbn [has_fuzzy results fuzzy_suggestions].
    split; [lia|]. intros _.
    destruct (firstn 20 (staged_matches (normalize q) dataset)) as [|it l].
    + cbn [length Nat.eqb].
      destruct (google_search_fallback q system) as [|g gs] eqn:Hg.
      * repeat split; auto.
      * repeat split; auto. discriminate.
    + cbn [length Nat.eqb]. repeat split; auto. discriminate.
  - split; [lia|]. intros _.
    pose proof (suggestions_imply_no_hit q dataset) as Hnone.
    fold r in Hnone.
    rewrite Hr in Hnone |- *. cbn [has_fuzzy results fuzzy_suggestions] in *.
    destruct (fuzzy_match_terms (normalize q) dataset 2) as [|m fm].
    + cbn [firstn map length Nat.eqb].
      destruct (google_search_fallback q system) as [|g gs] eqn:Hg.
      * repeat split; auto.
      * repeat split; auto. discriminate.
    + change (firstn 5 (m :: fm)) with (m :: firstn 4 fm) in *.
      cbn [map] in *. repeat split; auto; try discriminate.
      apply Hnone. discriminate.
Qed.

End RouteFacts.

Lemma autocomplete_route_spec_witness :
  length (Autocomplete.normalize (lit "a")) < 2
  /\ AutocompleteRoutes.autocomplete_route
       (fun _ _ : str => @nil unit) (lit "siddha") sample_data (lit "a")
     = None.
Proof.
  assert (H : length (Autocomplete.normalize (lit "a")) < 2)
    by (vm_compute; lia).
  split; [exact H|].
  exact (proj1 (@autocomplete_route_spec unit (fun _ _ : str => @nil unit)
                  (lit "siddha") sample_data (lit "a")) H).
Defined.

(* ================================================================== *)
(** * More on the cascading pipeline *)
(* ================================================================== *)

Section TopFacts.
Import Search.
Variable argsort : list Q -> list nat.
Hypothesis argsort_ok : argsort_contract argsort.

(** What [np.argsort(scores)[::-1][:top_k]] selects. *)
Lemma top_spec (k : nat) (scores : list Q) :
  let t := top argsort k scores in
  let score_of := fun i => nth i scores 0%Q in
  length t = Nat.min k (length scores)
  /\ NoDup t
  /\ (forall i, In i t -> i < length scores)
  /\ sorted_by Qdescending score_of t
  /\ (forall i j, In i t -> j < length scores -> ~ In j t ->
        (score_of j <= score_of i)%Q).
Proof.
  intros t score_of.
  destruct (argsort_ok scores) as [Hperm Hsorted].
  assert (Hsplit : rev (argsort scores)
                   = t ++ skipn k (rev (argsort scores)))
    by (symmetry; apply firstn_skipn).
  assert (Hdesc : StronglySorted
                    (fun x y => Qle_bool (score_of y) (score_of x) = true)
                    (rev (argsort scores)))
    by (apply StronglySorted_rev; exact Hsorted).
  split; [|split; [|split; [|split]]].
  - unfold t, top.
    now rewrite length_firstn, length_rev, (Permutation_length Hperm),
      length_seq.
  - apply (NoDup_app_remove_r t (skipn k (rev (argsort scores)))).
    rewrite <- Hsplit. apply NoDup_rev.
    apply (Permutation_NoDup (Permutation_sym Hperm)), seq_NoDup.
  - intros i Hi. eapply top_bound; [exact argsort_ok | exact Hi].
  - unfold sorted_by, Qdescending. rewrite Hsplit in Hdesc.
    eapply StronglySorted_app_l, Hdesc.
  - intros i j Hi Hj Hnot.
    assert (Hin : In j (rev (argsort scores))).
    { apply (proj1 (in_rev _ _)).
      apply (Permutation_in _ (Permutation_sym Hperm)).
      apply in_seq. lia. }
    rewrite Hsplit in Hin, Hdesc. apply in_app_or in Hin.
    destruct Hin as [Hin|Hin]; [contradiction|].
    apply Qle_bool_iff.
    exact (@StronglySorted_app_cross _ _ _ _ Hdesc i j Hi Hin).
Qed.

Lemma for_each_NoDup {X Y : Type} (f : X -> option Y) (l : list X)
      (ys : list Y) :
  (forall x1 x2 y, In x1 l -> In x2 l ->
     f x1 = Some y -> f x2 = Some y -> x1 = x2) ->
  NoDup l -> for_each f l = Some ys -> NoDup ys.
Proof.
  revert ys. induction l as [|x l IH]; intros ys Hinj Hnd H; cbn in H.
  - inversion H. constructor.
  - destruct (f x) as [y|] eqn:Hx; [|discriminate]. cbn in H.
    destruct (for_each f l) as [ys0|] eqn:Hl; [|discriminate]. cbn in H.
    inversion H; subst. inversion Hnd as [|? ? Hnot Hnd']; subst.
    constructor.
    + intros Hy. destruct (for_each_In _ _ Hl y Hy) as [x' [Hx' Hfx']].
      assert (x = x') by (apply (Hinj x x' y); cbn; auto).
      subst. contradiction.
    + apply IH; auto. intros x1 x2 y' H1 H2. apply Hinj; now right.
Qed.

Lemma for_each_In_image {X Y : Type} (f : X -> option Y) (l : list X)
      (ys : list Y) :
  for_each f l = Some ys ->
  forall x y, In x l -> f x = Some y -> In y ys.
Proof.
  revert ys. induction l as [|a l IH]; intros ys H x y Hx Hfx; [destruct Hx|].
  cbn in H. destruct (f a) as [b|] eqn:Hfa; [|discriminate]. cbn in H.
  destruct (for_each f l) as [ys0|]; [|discriminate]. cbn in H.
  inversion H; subst. destruct Hx as [->|Hx].
  - left. congruence.
  - right. now apply (IH ys0 eq_refl x).
Qed.

Lemma for_each_sorted {X Y K : Type} (before : K -> K -> bool)
      (f : X -> option Y) (key1 : X -> K) (key2 : Y -> K)
      (l : list X) (ys : list Y) :
  (forall x y, In x l -> f x = Some y -> key2 y = key1 x) ->
  sorted_by before key1 l -> for_each f l = Some ys ->
  sorted_by before key2 ys.
Proof.
  unfold sorted_by. intros Hk Hs. revert ys.
  induction Hs as [|a l Hs IH Ha]; intros ys H; cbn in H.
  - inversion H. constructor.
  - destruct (f a) as [y|] eqn:Hfa; [|discriminate]. cbn in H.
    destruct (for_each f l) as [ys0|] eqn:Hl; [|discriminate]. cbn in H.
    inversion H; subst. constructor.
    + apply IH; auto. intros x y' Hx. apply Hk. now right.
    + rewrite Forall_forall in *. intros z Hz.
      destruct (for_each_In _ _ Hl z Hz) as [x [Hx Hfx]].
      rewrite (Hk a y (or_introl eq_refl) Hfa), (Hk x z (or_intror Hx) Hfx).
      now apply Ha.
Qed.

Lemma for_each_Forall2 {X Y Z : Type} (f : X -> option Y) (g : X -> option Z)
      (R : Y -> Z -> Prop) (l : list X) (ys : list Y) (zs : list Z) :
  (forall x y z, In x l -> f x = Some y -> g x = Some z -> R y z) ->
  for_each f l = Some ys -> for_each g l = Some zs -> Forall2 R ys zs.
Proof.
  revert ys zs. induction l as [|x l IH]; intros ys zs HR Hf Hg;
    cbn in Hf, Hg.
  - inversion Hf; inversion Hg. constructor.
  - destruct (f x) as [y|] eqn:Hfx; [|discriminate]. cbn in Hf.
    destruct (for_each f l) as [ys0|]; [|discriminate]. cbn in Hf.
    destruct (g x) as [z|] eqn:Hgx; [|discriminate]. cbn in Hg.
    destruct (for_each g l) as [zs0|]; [|discriminate]. cbn in Hg.
    inversion Hf; inversion Hg; subst. constructor.
    + apply (HR x); auto. now left.
    + apply IH; auto. intros x' y' z' Hx'. apply HR. now right.
Qed.

Lemma take_nth {X : Type} (a : list X) (ids : list nat) (xs : list X) :
  take a ids = Some xs ->
  forall i id, nth_error ids i = Some id -> nth_error xs i = nth_error a id.
Proof.
  unfold take. revert xs. induction ids as [|d ids IH]; intros xs H i id Hi.
  - destruct i; discriminate.
  - cbn in H. destruct (nth_error a d) as [x|] eqn:Hd; [|discriminate].
    cbn in H. destruct (for_each (nth_error a) ids) as [xs0|]; [|discriminate].
    cbn in H. inversion H; subst. destruct i as [|i]; cbn in *.
    + inversion Hi; subst. now symmetry.
    + now apply IH.
Qed.

(** Picking the entries of [ids] at the positions with the [k] best
    scores, when position [i] is scored by the key of [ids[i]]. *)
Lemma select_top (k : nat) (ids : list nat) (scores : list Q)
      (key : nat -> Q) (out : list nat) :
  NoDup ids ->
  length scores = length ids ->
  (forall i id, nth_error ids i = Some id -> nth i scores 0%Q = key id) ->
  for_each (nth_error ids) (top argsort k scores) = Some out ->
  length out = Nat.min k (length ids)
  /\ NoDup out
  /\ incl out ids
  /\ sorted_by Qdescending key out
  /\ (forall a b, In a out -> In b ids -> ~ In b out ->
        (key b <= key a)%Q).
Proof.
  intros Hnd Hlen Hkey Hout.
  destruct (top_spec k scores) as [Htl [Htnd [Htb [Hts Htd]]]].
  pose proof (proj1 (NoDup_nth_error ids) Hnd) as Hinj.
  split; [|split; [|split; [|split]]].
  - now rewrite (for_each_length _ _ Hout), Htl, Hlen.
  - apply (@for_each_NoDup _ _ (nth_error ids) (top argsort k scores) out);
      [|exact Htnd|exact Hout].
    intros i1 i2 id H1 H2 E1 E2. apply Hinj; [|congruence].
    apply nth_error_Some. congruence.
  - intros id Hid. destruct (for_each_In _ _ Hout id Hid) as [i [_ Hi]].
    eapply nth_error_In, Hi.
  - eapply for_each_sorted; [|exact Hts|exact Hout].
    intros i id _ Hi. cbv beta. symmetry. now apply Hkey.
  - intros a b Ha Hb Hnot.
    destruct (for_each_In _ _ Hout a Ha) as [i [Hi Hia]].
    destruct (In_nth_error _ _ Hb) as [j Hjb].
    assert (Hj : j < length scores).
    { rewrite Hlen. apply nth_error_Some. congruence. }
    assert (Hjn : ~ In j (top argsort k scores)).
    { intros Hj'. apply Hnot.
      exact (for_each_In_image _ _ Hout j Hj' Hjb). }
    rewrite <- (Hkey i a Hia), <- (Hkey j b Hjb).
    now apply Htd.
Qed.
End TopFacts.

Section StageFacts.
Import Search.
Variable argsort : list Q -> list nat.
Variable bm25_get_scores : str -> list Q.
Variables tfidf_row tfidf_vec embedding : Type.
Variable tfidf_transform : str -> tfidf_vec.
Variable tfidf_matrix : list tfidf_row.
Variable dot : tfidf_row -> tfidf_vec -> Q.
Variable encode : str -> embedding.
Variable embeddings : list embedding.
Variable cos_sim : embedding -> embedding -> Q.
Variables codes terms : list str.

Lemma scores_at {X : Type} (table sub : list X) (score_of : X -> Q)
      (ids : list nat) :
  take table ids = Some sub ->
  forall i id, nth_error ids i = Some id ->
    nth i (map score_of sub) 0%Q = score_at table score_of id.
Proof.
  intros Hsub i id Hi. unfold score_at.
  rewrite <- (take_nth _ _ Hsub i Hi).
  assert (Hlt : i < length sub).
  { rewrite (take_length _ _ Hsub). apply nth_error_Some. congruence. }
  destruct (nth_error_lt_Some sub Hlt) as [x Hx]. rewrite Hx.
  apply nth_error_nth. now rewrite nth_error_map, Hx.
Qed.

Lemma tfidf_rerank_top (query : str) (ids : list nat) (k : nat)
        (out : list nat) :
  argsort_contract argsort ->
  NoDup ids ->
  tfidf_rerank argsort tfidf_transform tfidf_matrix dot query ids k
  = Some out ->
  let tfidf_score :=
    score_at tfidf_matrix (fun row => dot row (tfidf_transform query)) in
  length out = Nat.min k (length ids)
  /\ NoDup out
  /\ incl out ids
  /\ sorted_by Qdescending tfidf_score out
  /\ (forall a b, In a out -> In b ids -> ~ In b out ->
        (tfidf_score b <= tfidf_score a)%Q).
Proof.
  intros Hc Hnd H tfidf_score. unfold tfidf_rerank in H.
  destruct (take tfidf_matrix ids) as [sub|] eqn:Hsub; [|discriminate].
  cbn [bind] in H.
  apply (@select_top argsort Hc k ids
           (map (fun row => dot row (tfidf_transform query)) sub)
           tfidf_score out); auto.
  - now rewrite length_map, (take_length _ _ Hsub).
  - intros i id Hi. eapply scores_at; eauto.
Qed.

(** X12. Stage 2 on distinct candidates: when [tfidf_rerank] returns, it
    returns min(top_k, number of candidates) distinct candidates, in
    descending order of their TF-IDF score against the query, and no
    candidate left out scores more than a candidate kept. *)
Theorem tfidf_rerank_selects (query : str) (ids : list nat) (k : nat)
        (out : list nat) :
  argsort_contract argsort ->
  NoDup ids ->
  tfidf_rerank argsort tfidf_transform tfidf_matrix dot query ids k
  = Some out ->
  let tfidf_score :=
    score_at tfidf_matrix (fun row => dot row (tfidf_transform query)) in
  length out = Nat.min k (length ids)
  /\ NoDup out
  /\ incl out ids
  /\ sorted_by Qdescending tfidf_score out
  /\ (forall a b, In a out -> In b ids -> ~ In b out ->
        (tfidf_score b <= tfidf_score a)%Q).
Proof. exact (@tfidf_rerank_top query ids k out). Qed.

Lemma semantic_rerank_top (query : str) (ids : list nat) (k : nat)
        (out : list candidate) :
  argsort_contract argsort ->
  NoDup ids ->
  semantic_rerank argsort encode embeddings cos_sim codes terms query ids k
  = Some out ->
  let similarity := score_at embeddings (cos_sim (encode query)) in
  exists docs : list nat,
    length docs = Nat.min k (length ids)
    /\ NoDup docs
    /\ incl docs ids
    /\ Forall2 (fun id c =>
                  nth_error codes id = Some (code c)
                  /\ nth_error terms id = Some (term c)
                  /\ score c = similarity id) docs out
    /\ sorted_by Qdescending score out
    /\ (forall a b, In a docs -> In b ids -> ~ In b docs ->
          (similarity b <= similarity a)%Q).
Proof.
  intros Hc Hnd H similarity. unfold semantic_rerank in H.
  destruct (take embeddings ids) as [sub|] eqn:Hsub; [|discriminate].
  cbn [bind] in H.
  set (scores := map (cos_sim (encode query)) sub) in *.
  assert (Hlen : length scores = length ids)
    by (unfold scores; now rewrite length_map, (take_length _ _ Hsub)).
  assert (Hkey : forall i id, nth_error ids i = Some id ->
                   nth i scores 0%Q = similarity id)
    by (intros i id Hi; eapply scores_at; eauto).
  destruct (top_spec Hc k scores) as [_ [_ [Htb [Hts _]]]].
  destruct (for_each_total (nth_error ids) (top argsort k scores))
    as [docs Hdocs].
  { intros i Hi. apply Htb in Hi. rewrite Hlen in Hi.
    now apply nth_error_lt_Some. }
  destruct (@select_top argsort Hc k ids scores similarity docs
              Hnd Hlen Hkey Hdocs)
    as [Hl [Hn [Hi [_ Hd]]]].
  exists docs. repeat (split; [assumption|]). split; [|split; [|exact Hd]].
  - eapply for_each_Forall2; [|exact Hdocs|exact H].
    intros i id c _ Hid Hc'. cbv beta in Hc'.
    rewrite Hid in Hc'. cbn [bind] in Hc'.
    destruct (nth_error codes id) as [cd|]; [|discriminate].
    cbn [bind] in Hc'.
    destruct (nth_error terms id) as [tm|]; [|discriminate].
    cbn [bind] in Hc'.
    destruct (nth_error scores i) as [sc|] eqn:Hsc; [|discriminate].
    cbn [bind] in Hc'. inversion Hc'; subst. cbn [code term score].
    repeat split. rewrite <- (Hkey i id Hid).
    symmetry. now apply nth_error_nth.
  - eapply for_each_sorted; [|exact Hts|exact H].
    intros i c _ Hc'. cbv beta in *.
    destruct (nth_error ids i) as [id|]; [|discriminate].
    cbn [bind] in Hc'.
    destruct (nth_error codes id) as [cd|]; [|discriminate].
    cbn [bind] in Hc'.
    destruct (nth_error terms id) as [tm|]; [|discriminate].
    cbn [bind] in Hc'.
    destruct (nth_error scores i) as [sc|] eqn:Hsc; [|discriminate].
    cbn [bind] in Hc'. inversion Hc'; subst. cbn [score].
    symmetry. now apply nth_error_nth.
Qed.

(** X13. Stage 3 on distinct candidates: when [semantic_rerank] returns,
    its candidates stand for min(top_k, number of candidates) distinct
    documents among the candidates; each carries the code and the term of
    its document and, as score, the cosine similarity of the query with the
    embedding of that document; the list is in descending order of score,
    and no candidate left out has a higher similarity than one kept. *)
Theorem semantic_rerank_selects (query : str) (ids : list nat) (k : nat)
        (out : list candidate) :
  argsort_contract argsort ->
  NoDup ids ->
  semantic_rerank argsort encode embeddings cos_sim codes terms query ids k
  = Some out ->
  let similarity := score_at embeddings (cos_sim (encode query)) in
  exists docs : list nat,
    length docs = Nat.min k (length ids)
    /\ NoDup docs
    /\ incl docs ids
    /\ Forall2 (fun id c =>
                  nth_error codes id = Some (code c)
                  /\ nth_error terms id = Some (term c)
                  /\ score c = similarity id) docs out
    /\ sorted_by Qdescending score out
    /\ (forall a b, In a docs -> In b ids -> ~ In b docs ->
          (similarity b <= similarity a)%Q).
Proof. exact (@semantic_rerank_top query ids k out). Qed.

(** X14. The whole pipeline on an aligned catalog: [search_siddha]
    returns exactly min(10, catalog size) candidates, they stand for
    distinct documents of the catalog, each with the code and term of its
    document, and they are in descending order of score. *)
Theorem search_siddha_result (query : str) :
  argsort_contract argsort ->
  (forall q, length (bm25_get_scores q) = length codes) ->
  length tfidf_matrix = length codes ->
  length embeddings = length codes ->
  length terms = length codes ->
  exists candidates docs,
    search_siddha argsort bm25_get_scores tfidf_transform tfidf_matrix
      dot encode embeddings cos_sim codes terms query = Some candidates
    /\ length candidates = Nat.min 10 (length codes)
    /\ NoDup docs
    /\ Forall2 (fun id c =>
                  nth_error codes id = Some (code c)
                  /\ nth_error terms id = Some (term c)) docs candidates
    /\ sorted_by Qdescending score candidates.
Proof.
  intros Hc Hbm Htf Hem Htm.
  set (bm25_ids := bm25_search argsort bm25_get_scores query 100).
  destruct (top_spec Hc 100 (bm25_get_scores query))
    as [Hl1 [Hn1 [Hb1 _]]].
  fold (bm25_search argsort bm25_get_scores query 100) in Hl1, Hn1, Hb1.
  fold bm25_ids in Hl1, Hn1, Hb1. rewrite Hbm in Hl1, Hb1.
  destruct (@tfidf_rerank_returns argsort _ _ tfidf_transform tfidf_matrix
              dot query bm25_ids 60 Hc) as [tfidf_ids H2];
    [intros id Hid; rewrite Htf; now apply Hb1|].
  destruct (tfidf_rerank_top _ _ Hc Hn1 H2) as [Hl2 [Hn2 [Hi2 _]]].
  destruct (@semantic_rerank_returns argsort _ encode embeddings cos_sim
              codes terms query tfidf_ids 10 Hc) as [cands H3].
  { intros id Hid. apply Hi2, Hb1 in Hid. rewrite Hem, Htm. auto. }
  destruct (semantic_rerank_top _ _ Hc Hn2 H3)
    as [docs [Hl3 [Hn3 [_ [Hf [Hs _]]]]]].
  exists cands, docs. split; [|split; [|split; [exact Hn3|split; [|exact Hs]]]].
  - unfold search_siddha. fold bm25_ids. rewrite H2. cbn [bind].
    rewrite H3. reflexivity.
  - rewrite <- (Forall2_length Hf), Hl3, Hl2, Hl1. lia.
  - eapply Forall2_impl; [|exact Hf]. cbv beta. tauto.
Qed.
End StageFacts.

Lemma tfidf_rerank_selects_witness :
  exists out,
    Search.tfidf_rerank Search.argsort_stable (fun _ : str => tt) toy_rows
      (fun (row : Q) (_ : unit) => row) (lit "fever") [0; 1; 2] 2 = Some out
    /\ length out = Nat.min 2 (length [0; 1; 2]).
Proof.
  eexists. split; [vm_compute; reflexivity|].
  refine (proj1 (@tfidf_rerank_selects Search.argsort_stable Q unit
                   (fun _ : str => tt) toy_rows
                   (fun (row : Q) (_ : unit) => row)
                   (lit "fever") [0; 1; 2] 2 _
                   argsort_stable_contract (seq_NoDup 3 0) _)).
  vm_compute. reflexivity.
Defined.

Lemma semantic_rerank_selects_witness :
  exists out, exists docs : list nat,
    Search.semantic_rerank Search.argsort_stable (fun _ : str => 1%Q)
      toy_embeddings (fun q e : Q => (q * e)%Q) toy_codes toy_terms
      (lit "fever") [0; 1; 2] 2 = Some out
    /\ length docs = Nat.min 2 (length [0; 1; 2])
    /\ NoDup docs.
Proof.
  assert (H : exists out,
            Search.semantic_rerank Search.argsort_stable (fun _ : str => 1%Q)
              toy_embeddings (fun q e : Q => (q * e)%Q) toy_codes toy_terms
              (lit "fever") [0; 1; 2] 2 = Some out)
    by (eexists; vm_compute; reflexivity).
  destruct H as [out H].
  destruct (@semantic_rerank_selects Search.argsort_stable Q
              (fun _ : str => 1%Q) toy_embeddings
              (fun q e : Q => (q * e)%Q) toy_codes toy_terms
              (lit "fever") [0; 1; 2] 2 out
              argsort_stable_contract (seq_NoDup 3 0) H)
    as [docs [Hl [Hn _]]].
  exists out, docs. split; [exact H|]. split; [exact Hl | exact Hn].
Defined.

Lemma search_siddha_result_witness :
  exists candidates,
    toy_search_siddha (lit "fever") = Some candidates
    /\ length candidates = Nat.min 10 (length toy_codes).
Proof.
  destruct (@search_siddha_result
              Search.argsort_stable toy_bm25 Q unit Q
              (fun _ : str => tt) toy_rows (fun (row : Q) (_ : unit) => row)
              (fun _ : str => 1%Q) toy_embeddings (fun q e : Q => (q * e)%Q)
              toy_codes toy_terms (lit "fever")
              argsort_stable_contract
              (fun _ => eq_refl) eq_refl eq_refl eq_refl)
    as [candidates [docs [Hs [Hl _]]]].
  exists candidates. split; [exact Hs | exact Hl].
Defined.

Section AyurvedaSatFacts.
Import SearchAyurvedaSat.
Variable argsort : list Q -> list nat.
Variable embedding : Type.
Variable encode : str -> embedding.
Variable embeddings : list embedding.
Variable cos_sim : embedding -> embedding -> Q.
Variables codes terms definitions : list str.

(** X15. Stage 3 of the Ayurveda-SAT pipeline never returns an empty
    definition: each candidate carries the code, the term and the
    definition of one of the documents it was given, and where the catalog
    definition is empty the candidate carries "No description available."
    instead; there are at most [top_k] candidates. *)
Theorem ayurveda_sat_definition_filled (query : str) (ids : list nat)
        (k : nat) (out : list candidate) :
  semantic_rerank argsort encode embeddings cos_sim codes terms definitions
    query ids k = Some out ->
  length out <= k
  /\ forall c, In c out ->
       definition c <> []
       /\ exists id d,
            In id ids
            /\ nth_error codes id = Some (code c)
            /\ nth_error terms id = Some (term c)
            /\ nth_error definitions id = Some d
            /\ (d <> [] -> definition c = d)
            /\ (d = [] -> definition c = lit "No description available.").
Proof.
  unfold semantic_rerank. intros H.
  destruct (Search.take embeddings ids) as [sub|]; [|discriminate].
  cbn [Search.bind] in H. split.
  - rewrite (for_each_length _ _ H). apply top_length.
  - intros c Hc.
    destruct (for_each_In _ _ H c Hc) as [i [_ Hi]].
    destruct (nth_error ids i) as [id|] eqn:Hid; [|discriminate].
    cbn [Search.bind] in Hi.
    destruct (nth_error codes id) as [cd|] eqn:Hcd; [|discriminate].
    cbn [Search.bind] in Hi.
    destruct (nth_error terms id) as [tm|] eqn:Htm; [|discriminate].
    cbn [Search.bind] in Hi.
    destruct (nth_error definitions id) as [d|] eqn:Hd; [|discriminate].
    cbn [Search.bind] in Hi.
    destruct (nth_error (map _ sub) i) as [sc|]; [|discriminate].
    cbn [Search.bind] in Hi. inversion Hi; subst. cbn [code term definition].
    split.
    + destruct d; discriminate.
    + exists id, d. split; [eapply nth_error_In, Hid|].
      repeat split; auto.
      * intros Hne. destruct d; [congruence|reflexivity].
      * intros ->. reflexivity.
Qed.
End AyurvedaSatFacts.

Lemma ayurveda_sat_definition_filled_witness :
  exists out,
    SearchAyurvedaSat.semantic_rerank Search.argsort_stable
      (fun _ : str => 1%Q) toy_embeddings (fun q e : Q => (q * e)%Q)
      toy_codes toy_terms [lit "High body temperature"; []; lit "Enlargement"]
      (lit "fever") [0; 1; 2] 10 = Some out
    /\ forall c, In c out -> SearchAyurvedaSat.definition c <> [].
Proof.
  eexists. split; [vm_compute; reflexivity|].
  intros c Hc.
  exact (proj1 (proj2 (@ayurveda_sat_definition_filled
                  Search.argsort_stable Q (fun _ : str => 1%Q) toy_embeddings
                  (fun q e : Q => (q * e)%Q) toy_codes toy_terms
                  [lit "High body temperature"; []; lit "Enlargement"]
                  (lit "fever") [0; 1; 2] 10 _ eq_refl) c Hc)).
Defined.

(* ================================================================== *)
(** * More on the re-ranking engine *)
(* ================================================================== *)

Section BoostCap.
Import Reranking.
Local Open Scope R_scope.

Lemma log10_lt (x y : R) : 0 < x -> x < y -> log10 x < log10 y.
Proof.
  intros Hx Hlt. unfold log10. pose proof ln_10_pos as H10.
  pose proof (ln_increasing x y Hx Hlt) as Hln.
  apply Rmult_lt_compat_r; [|exact Hln].
  now apply Rinv_0_lt_compat.
Qed.

Lemma log10_100000 : log10 100000 = 5.
Proof.
  unfold log10. pose proof ln_10_pos as H10.
  replace 100000 with (10 ^ 5) by (simpl; lra).
  rewrite ln_pow by lra.
  replace (INR 5) with 5 by (simpl; lra).
  field. lra.
Qed.

Lemma calculate_boost_below_cap (n : Z) :
  (0 < n < 99999)%Z ->
  calculate_boost n = log10 (IZR (n + 1)) * (1 / 10)
  /\ 0 < calculate_boost n < 5 / 10.
Proof.
  intros Hn. rewrite calculate_boost_pos_eq by lia.
  unfold BOOST_WEIGHT, MAX_BOOST.
  assert (Hlt : log10 (IZR (n + 1)) < 5).
  { rewrite <- log10_100000. apply log10_lt; [apply IZR_lt; lia|].
    apply IZR_lt. lia. }
  assert (Hpos : 0 < log10 (IZR (n + 1)))
    by (apply log10_pos, IZR_lt; lia).
  rewrite Rmin_left by lra. split; [reflexivity | lra].
Qed.

Lemma calculate_boost_at_cap (n : Z) :
  (99999 <= n)%Z -> calculate_boost n = 5 / 10.
Proof.
  intros Hn. rewrite calculate_boost_pos_eq by lia.
  unfold BOOST_WEIGHT, MAX_BOOST.
  assert (Hge : 5 <= log10 (IZR (n + 1))).
  { rewrite <- log10_100000. apply log10_le; [lra|]. apply IZR_le. lia. }
  apply Rmin_right. lra.
Qed.

(** X16. The boost reaches its cap of 0.5 exactly from 99,999 selections
    on: below that it is strictly under 0.5 and grows strictly with every
    further selection. *)
Theorem calculate_boost_cap :
  (forall n : Z, (99999 <= n)%Z -> calculate_boost n = 5 / 10)
  /\ (forall n : Z, (n < 99999)%Z -> calculate_boost n < 5 / 10)
  /\ (forall n1 n2 : Z, (0 <= n1 < n2)%Z -> (n2 <= 99999)%Z ->
        calculate_boost n1 < calculate_boost n2).
Proof.
  split; [exact calculate_boost_at_cap|]. split.
  - intros n Hn. destruct (Z_le_gt_dec n 0) as [H0|H0].
    + rewrite (calculate_boost_zero H0). lra.
    + apply calculate_boost_below_cap. lia.
  - intros n1 n2 [H0 Hlt] Hcap.
    destruct (Z.eq_dec n2 99999) as [->|Hne].
    + rewrite (calculate_boost_at_cap (n := 99999)) by lia.
      destruct (Z.eq_dec n1 0) as [->|H1].
      * rewrite calculate_boost_zero by lia. lra.
      * apply calculate_boost_below_cap. lia.
    + destruct (@calculate_boost_below_cap n2) as [E2 [P2 _]]; [lia|].
      destruct (Z.eq_dec n1 0) as [->|H1].
      * rewrite calculate_boost_zero by lia. exact P2.
      * destruct (@calculate_boost_below_cap n1) as [E1 _]; [lia|].
        rewrite E1, E2.
        apply Rmult_lt_compat_r; [lra|].
        apply log10_lt; apply IZR_lt; lia.
Qed.

Lemma calculate_boost_cap_witness :
  calculate_boost 100000 = 5 / 10 /\ calculate_boost 3 < calculate_boost 4.
Proof.
  split.
  - apply (proj1 calculate_boost_cap). lia.
  - apply (proj2 (proj2 calculate_boost_cap)); lia.
Defined.
End BoostCap.

Section FilterAndRepeat.
Import Reranking RerankingEngine.
Local Open Scope R_scope.
Variable payload : Type.
Implicit Types (item x y : result payload) (selection_counts : counts).

Lemma filter_sorted_prefix (threshold : R) (l : list (result payload)) :
  sorted_by descending (@sort_key payload) l ->
  filter_low_confidence l threshold
  = firstn (length (filter_low_confidence l threshold)) l.
Proof.
  unfold filter_low_confidence, sorted_by.
  induction 1 as [|a l Hs IH Ha]; [reflexivity|].
  cbn [filter]. destruct (Rleb threshold (sort_key a)) eqn:Hk.
  - cbn [length firstn]. now rewrite <- IH.
  - assert (Hnil : filter (fun item => Rleb threshold (sort_key item)) l = []).
    { apply Rleb_false in Hk. clear IH.
      induction l as [|b l IHl]; [reflexivity|].
      inversion Ha as [|? ? Hab Ha']; subst.
      inversion Hs as [|? ? Hs' Hb]; subst.
      cbn [filter]. unfold descending in Hab. apply Rleb_true in Hab.
      destruct (Rleb threshold (sort_key b)) eqn:Hb'.
      - apply Rleb_true in Hb'. lra.
      - now apply IHl. }
    rewrite Hnil. reflexivity.
Qed.

(** X17. [filter_low_confidence] keeps exactly the results whose score
    (final score, else score, else 0) reaches the threshold, each as often
    as it occurs and in the order of the list it is given, whatever that
    list is: it works result by result, keeping a single result at or
    above the threshold and dropping one below it.  Applied to a re-ranked
    list it cuts the list at one point: what it keeps is an initial
    segment of the re-ranked list, still in descending order. *)
Theorem filter_low_confidence_spec :
  (forall (l1 l2 : list (result payload)) (threshold : R),
     filter_low_confidence (l1 ++ l2) threshold
     = filter_low_confidence l1 threshold
       ++ filter_low_confidence l2 threshold)
  /\ (forall x (threshold : R),
        (threshold <= sort_key x -> filter_low_confidence [x] threshold = [x])
        /\ (sort_key x < threshold -> filter_low_confidence [x] threshold = []))
  /\ (forall (results : list (result payload)) (threshold : R) x,
        In x (filter_low_confidence results threshold)
        <-> In x results /\ threshold <= sort_key x)
  /\ (forall (results : list (result payload)) selection_counts
             (threshold : R),
        let ranked := apply_boost_to_results results selection_counts in
        let kept := filter_low_confidence ranked threshold in
        kept = firstn (length kept) ranked
        /\ sorted_by descending (@sort_key payload) kept).
Proof.
  split; [|split; [|split]].
  - intros l1 l2 threshold. apply filter_app.
  - intros x threshold. unfold filter_low_confidence. cbn [filter]. split.
    + intros H. now rewrite (proj2 (Rleb_true threshold (sort_key x)) H).
    + intros H. now rewrite (proj2 (Rleb_false threshold (sort_key x)) H).
  - intros results threshold x. unfold filter_low_confidence.
    now rewrite filter_In, Rleb_true.
  - intros results selection_counts threshold ranked kept.
    assert (Hs : sorted_by descending (@sort_key payload) ranked)
      by (apply stable_sort_sorted;
          [apply descending_total | apply descending_trans]).
    split; [now apply filter_sorted_prefix|].
    replace kept with (firstn (length kept) ranked)
      by (symmetry; now apply filter_sorted_prefix).
    unfold sorted_by in *.
    rewrite <- (firstn_skipn (length kept) ranked) in Hs.
    eapply StronglySorted_app_l, Hs.
Qed.

Lemma apply_boost_again (c1 c2 : counts) item :
  apply_boost c2 (apply_boost c1 item) = apply_boost c2 item.
Proof.
  unfold apply_boost.
  destruct (code item) as [[|a c]|] eqn:Hc; cbn; rewrite ?Hc; reflexivity.
Qed.

(** X18. Boosts do not pile up.  Re-ranking a list that was already
    re-ranked computes every final score afresh from the base score, so
    the earlier counts leave no trace in any candidate; and re-ranking a
    second time with the same counts returns the list unchanged. *)
Theorem rerank_again (results : list (result payload)) (c1 c2 : counts) :
  (forall item, apply_boost c2 (apply_boost c1 item) = apply_boost c2 item)
  /\ Permutation
       (apply_boost_to_results (apply_boost_to_results results c1) c2)
       (apply_boost_to_results results c2)
  /\ apply_boost_to_results (apply_boost_to_results results c1) c1
     = apply_boost_to_results results c1.
Proof.
  split; [intros; apply apply_boost_again|]. split.
  - eapply Permutation_trans; [apply apply_boost_to_results_perm|].
    eapply Permutation_trans;
      [apply Permutation_map, apply_boost_to_results_perm|].
    rewrite map_map.
    rewrite (map_ext _ (apply_boost c2) (apply_boost_again c1 c2)).
    apply Permutation_sym, apply_boost_to_results_perm.
  - set (out := apply_boost_to_results results c1).
    assert (Hmap : map (apply_boost c1) out = out).
    { rewrite <- (map_id out) at 2. apply map_ext_in.
      intros x Hx.
      apply (Permutation_in _ (apply_boost_to_results_perm _ _)) in Hx.
      apply in_map_iff in Hx. destruct Hx as [y [<- _]].
      apply apply_boost_again. }
    unfold apply_boost_to_results at 1. rewrite Hmap.
    apply stable_sort_sorted_id.
    apply stable_sort_sorted;
      [apply descending_total | apply descending_trans].
Qed.
End FilterAndRepeat.

Lemma filter_low_confidence_spec_witness :
  RerankingEngine.filter_low_confidence
    [result_without_code; result_C] (8 / 10)%R
  = [result_C].
Proof.
  destruct (@filter_low_confidence_spec unit) as [Happ [Hone _]].
  change [result_without_code; result_C]
    with ([result_without_code] ++ [result_C]).
  rewrite Happ.
  rewrite (proj2 (Hone result_without_code (8 / 10)%R)),
          (proj1 (Hone result_C (8 / 10)%R)).
  - reflexivity.
  - unfold Reranking.sort_key; cbn. lra.
  - unfold Reranking.sort_key; cbn. lra.
Defined.

Section MappingFacts.
Import Reranking RerankingEngine.
Variable payload : Type.
Implicit Types (m : mapping payload) (c : counts).

Lemma str_eqb_refl (s : str) : str_eqb s s = true.
Proof. now apply str_eqb_eq. Qed.

Lemma str_eqb_neq (s t : str) : s <> t -> str_eqb s t = false.
Proof.
  intros H. destruct (str_eqb s t) eqn:E; [|reflexivity].
  apply str_eqb_eq in E. contradiction.
Qed.

Lemma rerank_key_other m (key : str) c (k : str) :
  k <> key -> rerank_key m key c k = m k.
Proof.
  intros H. unfold rerank_key. destruct (m key); [|reflexivity].
  unfold set_key. now rewrite (str_eqb_neq H).
Qed.

Lemma rerank_key_at m (key : str) c :
  rerank_key m key c key
  = match m key with
    | Some l => Some (apply_boost_to_results l c)
    | None => None
    end.
Proof.
  unfold rerank_key. destruct (m key) eqn:E; [|exact E].
  unfold set_key. now rewrite str_eqb_refl.
Qed.

Lemma untouched_rerank (l : list (result payload)) c :
  Permutation (map (@untouched payload) (apply_boost_to_results l c))
              (map (@untouched payload) l).
Proof.
  eapply Permutation_trans;
    [apply Permutation_map, apply_boost_to_results_perm|].
  rewrite map_map. erewrite map_ext; [apply Permutation_refl|].
  intros x. apply apply_boost_untouched.
Qed.

Lemma same_candidates_refl m : same_candidates m m.
Proof. intros k. destruct (m k); [apply Permutation_refl | exact I]. Qed.

Lemma same_candidates_trans m1 m2 m3 :
  same_candidates m1 m2 -> same_candidates m2 m3 -> same_candidates m1 m3.
Proof.
  intros H12 H23 k. specialize (H12 k). specialize (H23 k).
  destruct (m1 k), (m2 k), (m3 k); try tauto.
  eapply Permutation_trans; eassumption.
Qed.

Lemma rerank_key_same m (key : str) c :
  same_candidates m (rerank_key m key c).
Proof.
  intros k. destruct (list_eq_dec ascii_dec k key) as [->|Hne].
  - rewrite rerank_key_at. destruct (m key); [|exact I].
    apply untouched_rerank.
  - rewrite (rerank_key_other m c Hne).
    destruct (m k); [apply Permutation_refl | exact I].
Qed.

Lemma rerank_key_keeps_sorted m (key : str) c (k : str) :
  (k = key \/ forall l, m k = Some l ->
                sorted_by descending (@sort_key payload) l) ->
  forall l, rerank_key m key c k = Some l ->
    sorted_by descending (@sort_key payload) l.
Proof.
  intros H l Hl. destruct (list_eq_dec ascii_dec k key) as [->|Hne].
  - rewrite rerank_key_at in Hl. destruct (m key); [|discriminate].
    inversion Hl. apply stable_sort_sorted;
      [apply descending_total | apply descending_trans].
  - rewrite (rerank_key_other m c Hne) in Hl.
    destruct H as [H|H]; [contradiction | now apply H].
Qed.

(** X19. [rerank_mapping_results] re-orders the lists under the keys
    "<system>_candidates" (hyphens of the system name replaced by
    underscores), "icd11_standard_candidates" and "icd11_tm2_candidates"
    and nothing else: no key appears or disappears, every list keeps its
    candidates (their code, score and other keys), lists under other keys
    are returned as they are, and each of the three lists that is present
    comes back in descending order of final score. *)
Theorem rerank_mapping_results_spec (counts : selection_counts)
        (mapping_result : mapping payload) (system : str) :
  let m' := rerank_mapping_results counts mapping_result system in
  let tm_key := replace_hyphen system ++ lit "_candidates" in
  same_candidates mapping_result m'
  /\ (forall k, k <> tm_key -> k <> lit "icd11_standard_candidates" ->
                k <> lit "icd11_tm2_candidates" ->
                m' k = mapping_result k)
  /\ (forall k l,
        k = tm_key \/ k = lit "icd11_standard_candidates"
        \/ k = lit "icd11_tm2_candidates" ->
        m' k = Some l ->
        sorted_by descending (@sort_key payload) l).
Proof.
  intros m' tm_key. unfold rerank_mapping_results in m'.
  fold tm_key in m'. cbv zeta in m'.
  set (m1 := rerank_key mapping_result tm_key (tm_codes counts)) in *.
  set (m2 := rerank_key m1 (lit "icd11_standard_candidates")
                        (icd11_standard counts)) in *.
  split; [|split].
  - eapply same_candidates_trans; [apply rerank_key_same|].
    eapply same_candidates_trans; apply rerank_key_same.
  - intros k H1 H2 H3. unfold m', m2, m1.
    now rewrite !rerank_key_other by assumption.
  - intros k l Hk. unfold m'. apply rerank_key_keeps_sorted.
    destruct Hk as [Hk|[Hk|Hk]]; [| |now left].
    + right. unfold m2. apply rerank_key_keeps_sorted.
      right. unfold m1. apply rerank_key_keeps_sorted. now left.
    + right. unfold m2. apply rerank_key_keeps_sorted. now left.
Qed.
End MappingFacts.

Lemma rerank_mapping_results_spec_witness :
  exists l,
    RerankingEngine.rerank_mapping_results toy_counts toy_mapping (lit "siddha")
      (lit "siddha_candidates") = Some l
    /\ sorted_by descending (@Reranking.sort_key unit) l.
Proof.
  eexists. split; [reflexivity|].
  refine (proj2 (proj2 (@rerank_mapping_results_spec unit toy_counts
                          toy_mapping (lit "siddha")))
            (lit "siddha_candidates") _ (or_introl eq_refl) eq_refl).
Defined.

Section TopCodes.
Import RerankingEngine.

Lemma Zdescending_total (a b : Z) :
  Zdescending a b = true \/ Zdescending b a = true.
Proof. unfold Zdescending. rewrite !Z.leb_le. lia. Qed.

Lemma Zdescending_trans (a b c : Z) :
  Zdescending a b = true -> Zdescending b c = true -> Zdescending a c = true.
Proof. unfold Zdescending. rewrite !Z.leb_le. lia. Qed.

Lemma filter_firstn_prefix {X : Type} (p : X -> bool) (n : nat) (l : list X) :
  exists m, filter p (firstn n l) = firstn m (filter p l).
Proof.
  revert n. induction l as [|x l IH]; intros n.
  - exists 0. now rewrite firstn_nil.
  - destruct n as [|n]; [now exists 0|].
    cbn [firstn filter]. destruct (IH n) as [m Hm].
    destruct (p x).
    + exists (S m). cbn [firstn]. now rewrite Hm.
    + now exists m.
Qed.

Lemma top_codes_most_selected (items : list (str * Z)) (limit : nat) :
  most_selected items limit (top_codes items limit).
Proof.
  unfold top_codes. fold Zdescending.
  set (sorted := stable_sort Zdescending (@snd str Z) items).
  assert (Hperm : Permutation sorted items) by apply stable_sort_perm.
  assert (Hs : sorted_by Zdescending (@snd str Z) sorted)
    by (apply stable_sort_sorted;
        [apply Zdescending_total | apply Zdescending_trans]).
  assert (Hsplit : sorted = firstn limit sorted ++ skipn limit sorted)
    by (symmetry; apply firstn_skipn).
  split; [|split; [|split; [|split]]].
  - now rewrite length_firstn, (Permutation_length Hperm).
  - intros x Hx. apply (Permutation_in _ Hperm). eapply firstn_In, Hx.
  - unfold sorted_by in *. rewrite Hsplit in Hs.
    eapply StronglySorted_app_l, Hs.
  - intros a b Ha Hb Hnot.
    apply (Permutation_in _ (Permutation_sym Hperm)) in Hb.
    rewrite Hsplit in Hb. apply in_app_or in Hb.
    destruct Hb as [Hb|Hb]; [contradiction|].
    unfold sorted_by in Hs. rewrite Hsplit in Hs.
    pose proof (@StronglySorted_app_cross _ _ _ _ Hs a b Ha Hb) as H.
    cbv beta in H. unfold Zdescending in H. now apply Z.leb_le.
  - intros n.
    destruct (filter_firstn_prefix (fun e : str * Z => (snd e =? n)%Z)
                limit sorted) as [m Hm].
    exists m. rewrite Hm. f_equal. apply stable_sort_filter.
    intros x y Hx Hy. apply Z.eqb_eq in Hx, Hy.
    unfold Zdescending. apply Z.leb_le. lia.
Qed.

(** X20. [get_top_codes_by_system] returns, for each of the three kinds
    of code, the [limit] most selected codes: min(limit, number of codes)
    entries of the counts, highest count first, no entry left out with a
    higher count than one returned, and codes with equal counts in the
    order in which the counts list them. *)
Theorem get_top_codes_by_system_spec (counts : code_counts) (limit : nat) :
  let r := get_top_codes_by_system counts limit in
  most_selected (tm_items counts) limit (tm_items r)
  /\ most_selected (icd11_standard_items counts) limit (icd11_standard_items r)
  /\ most_selected (icd11_tm2_items counts) limit (icd11_tm2_items r).
Proof.
  cbv zeta. unfold get_top_codes_by_system.
  cbn [tm_items icd11_standard_items icd11_tm2_items].
  repeat split; apply top_codes_most_selected.
Qed.
End TopCodes.

Section FindRank.
Import Database.

Lemma find_from_spec (i : nat) (candidates : list dict) (selected_code : value) :
  match find_from i candidates selected_code with
  | Some r =>
      i <= r < i + length candidates
      /\ (exists c, nth_error candidates (r - i) = Some c
                    /\ value_eqb (get c (lit "code")) selected_code = true)
      /\ (forall j c, j < r - i -> nth_error candidates j = Some c ->
            value_eqb (get c (lit "code")) selected_code = false)
  | None =>
      forall c, In c candidates ->
        value_eqb (get c (lit "code")) selected_code = false
  end.
Proof.
  revert i. induction candidates as [|c l IH]; intros i; cbn [find_from].
  - intros c [].
  - destruct (value_eqb (get c (lit "code")) selected_code) eqn:Hc.
    + cbn [length]. split; [lia|]. rewrite Nat.sub_diag. split.
      * exists c. now split.
      * intros j c' Hj. lia.
    + specialize (IH (S i)).
      destruct (find_from (S i) l selected_code) as [r|].
      * destruct IH as [Hr [[c' [Hn Hm]] Hearlier]]. cbn [length].
        split; [lia|].
        replace (r - i) with (S (r - S i)) by lia. split.
        -- exists c'. now split.
        -- intros j c0 Hj Hj'. destruct j as [|j]; cbn in Hj'.
           ++ now inversion Hj'; subst.
           ++ apply (Hearlier j); [lia | exact Hj'].
      * intros c' [<-|Hin]; [exact Hc | now apply IH].
Qed.

(** X21. [_find_rank] reports where the selected code first occurs among
    the first 10 candidates.  An answer [r] is between 1 and 10, the
    candidate at position [r] has the code of the selected item and no
    earlier candidate has it.  No answer means that the selected item is
    missing or empty, or that none of the first 10 candidates has its
    code, so a candidate ranked 11th or later is never found. *)
Theorem find_rank_spec (selected_item : option dict) (candidates : list dict) :
  match find_rank selected_item candidates with
  | Some r =>
      1 <= r <= 10 /\ r <= length candidates
      /\ exists selected c,
           selected_item = Some selected /\ selected <> []
           /\ nth_error candidates (r - 1) = Some c
           /\ value_eqb (get c (lit "code")) (get selected (lit "code")) = true
           /\ (forall j c', j < r - 1 -> nth_error candidates j = Some c' ->
                 value_eqb (get c' (lit "code")) (get selected (lit "code"))
                 = false)
  | None =>
      selected_item = None \/ selected_item = Some []
      \/ exists selected,
           selected_item = Some selected
           /\ (forall j c, j < 10 -> nth_error candidates j = Some c ->
                 value_eqb (get c (lit "code")) (get selected (lit "code"))
                 = false)
  end.
Proof.
  unfold find_rank.
  destruct selected_item as [[|kv sel]|]; [now right; left| |now left].
  destruct candidates as [|c0 l] eqn:Hcands.
  { right. right. exists (kv :: sel). split; [reflexivity|].
    intros j c _ Hj. destruct j; discriminate. }
  rewrite <- Hcands. clear Hcands c0 l.
  set (selected := kv :: sel).
  pose proof (find_from_spec 1 (firstn 10 candidates)
                (get selected (lit "code"))) as H.
  pose proof (length_firstn 10 candidates) as Hlen.
  destruct (find_from 1 (firstn 10 candidates) (get selected (lit "code")))
    as [r|].
  - destruct H as [Hr [[c [Hn Hm]] Hearlier]].
    split; [lia|]. split; [lia|].
    exists selected, c. split; [reflexivity|]. split; [discriminate|].
    assert (Hnth : forall j, j < 10 ->
              nth_error (firstn 10 candidates) j = nth_error candidates j)
      by (intros j Hj; now rewrite nth_error_firstn,
                             (proj2 (Nat.ltb_lt j 10) Hj)).
    split; [rewrite <- Hnth by lia; exact Hn|]. split; [exact Hm|].
    intros j c' Hj Hj'. apply (Hearlier j); [exact Hj|].
    rewrite Hnth by lia. exact Hj'.
  - right. right. exists selected. split; [reflexivity|].
    intros j c Hj Hc. apply H.
    apply nth_error_In with (n := j).
    now rewrite nth_error_firstn, (proj2 (Nat.ltb_lt j 10) Hj).
Qed.
End FindRank.

Section ExactFuzzyMatch.
Import Autocomplete.

(** X22. A document whose normalized term or normalized code equals the
    normalized query is always among the fuzzy matches, with distance 0,
    whatever the maximum distance; and the list of matches then starts
    with a document at distance 0. *)
Theorem fuzzy_match_terms_exact (query : str) (dataset : list item)
        (max_distance : nat) (it : item) :
  In it dataset ->
  normalize query = normalize (term it)
  \/ normalize query = normalize (code it) ->
  In (it, 0) (fuzzy_match_terms query dataset max_distance)
  /\ match fuzzy_match_terms query dataset max_distance with
     | first :: _ => snd first = 0
     | [] => False
     end.
Proof.
  intros Hin Heq.
  assert (Hbest : best_distance (normalize query) it = 0).
  { destruct (best_distance_minimum (normalize query) it) as [_ Hle].
    unfold fuzzy_distances in Hle.
    inversion Hle as [|? ? Ht Hle']; subst.
    inversion Hle' as [|? ? Hc _]; subst.
    destruct Heq as [E|E].
    - rewrite <- E, levenshtein_distance_table, lev_table_diag in Ht. lia.
    - rewrite <- E, levenshtein_distance_table, lev_table_diag in Hc. lia. }
  assert (Hmem : In (it, 0) (fuzzy_match_terms query dataset max_distance)).
  { unfold fuzzy_match_terms. apply stable_sort_In.
    rewrite fuzzy_collect_spec. apply in_map_iff. exists it.
    rewrite Hbest. split; [reflexivity|].
    apply filter_In. split; [exact Hin|]. now rewrite Hbest. }
  split; [exact Hmem|].
  assert (Hs : sorted_by Nat.leb (@snd item nat)
                 (fuzzy_match_terms query dataset max_distance))
    by (apply stable_sort_sorted; [apply leb_total | apply leb_trans]).
  destruct (fuzzy_match_terms query dataset max_distance) as [|m l];
    [destruct Hmem|].
  unfold sorted_by in Hs. apply StronglySorted_inv in Hs.
  destruct Hs as [_ Hm]. rewrite Forall_forall in Hm.
  destruct Hmem as [->|Hmem]; [reflexivity|].
  specialize (Hm _ Hmem). cbn [snd] in Hm. apply Nat.leb_le in Hm. lia.
Qed.

Lemma fuzzy_match_terms_exact_witness :
  In (Item (lit "SP47") (lit "Swelling") (lit "Abnormal enlargement"), 0)
     (fuzzy_match_terms (lit "SWELLING!") sample_data 2).
Proof.
  assert (H1 : In (Item (lit "SP47") (lit "Swelling")
                        (lit "Abnormal enlargement")) sample_data)
    by (unfold sample_data; do 5 right; left; reflexivity).
  assert (H2 : normalize (lit "SWELLING!")
               = normalize (term (Item (lit "SP47") (lit "Swelling")
                                       (lit "Abnormal enlargement")))
               \/ normalize (lit "SWELLING!")
                  = normalize (code (Item (lit "SP47") (lit "Swelling")
                                          (lit "Abnormal enlargement"))))
    by (left; vm_compute; reflexivity).
  pose proof (@fuzzy_match_terms_exact (lit "SWELLING!") sample_data 2 _ H1 H2)
    as H.
  destruct H as [H _]. exact H.
Defined.
End ExactFuzzyMatch.
